(** * Batched Room-to-Room navigation environment (tasks/R2R/env.py)

    A shallow embedding of [EnvBatch] and [R2RBatch] and the properties of
    the simulator facade, the minibatch cursor and the shortest-path oracle.

    Conventions of the embedding.
    - Python [float] angles are read as real numbers: [math.pi] is [PI],
      comparisons are the order of [R], [math.atan2] is the two-argument
      arctangent [atan2] below.  Rounding is not modelled.
    - Python [int] values that can be negative (view indices, action
      tuples, simple action codes) are [Z]; [//] is [Z.div], which floors
      like Python for a positive divisor.  Sizes and cursors are [nat].
    - [dict] objects are [gmap]s, lists are [list]s, and a raised exception
      is the [Raise] case of [result].
    - The MatterSim simulator is opaque: a simulator is the object identity
      it got at construction and the calls it received so far. *)

From Stdlib Require Import Reals Lra Ascii.
From stdpp Require Import gmap strings list pretty sorting.

Local Open Scope Z_scope.

(** ** Exceptions *)

Inductive exn : Type :=
| KeyError
| IndexError
| AssertionError
| SystemExit (msg : string).

Inductive result (A : Type) : Type :=
| Ok (a : A)
| Raise (e : exn).
Arguments Ok {A} a.
Arguments Raise {A} e.

#[global] Instance result_ret : MRet result := fun _ a => Ok a.
#[global] Instance result_bind : MBind result := fun _ _ f m =>
  match m with
  | Ok a => f a
  | Raise e => Raise e
  end.
#[global] Instance result_fmap : FMap result := fun _ _ f m =>
  match m with
  | Ok a => Ok (f a)
  | Raise e => Raise e
  end.

(** [d[k]] on a dict, [l[i]] on a list with [i >= 0], and [assert]. *)
Definition getitem {V : Type} (d : gmap string V) (k : string) : result V :=
  match d !! k with
  | Some v => Ok v
  | None => Raise KeyError
  end.

Definition index {A : Type} (l : list A) (i : nat) : result A :=
  match l !! i with
  | Some a => Ok a
  | None => Raise IndexError
  end.

Definition assert (b : bool) : result unit :=
  if b then Ok tt else Raise AssertionError.

(** ** Decidable order on the reals, for [if] on float comparisons *)

#[global] Instance Rlt_decision (x y : R) : Decision (x < y)%R := Rlt_dec x y.
#[global] Instance Rgt_decision (x y : R) : Decision (x > y)%R := Rgt_dec x y.

(** ** Simulator data *)

(** A 3D point: [p[0]], [p[1]], [p[2]]. *)
Record Point : Type := mkPoint { px : R; py : R; pz : R }.

Definition point_sub (a b : Point) : Point :=
  mkPoint (px a - px b) (py a - py b) (pz a - pz b).

(** An (index, heading, elevation) action tuple. *)
Definition Action : Type := (Z * Z * Z)%type.

Module Viewpoint.
Record t : Type := mk {
  viewpointId : string;
  point : Point;
  rel_heading : R;
  rel_elevation : R
}.
End Viewpoint.

(** What [sim.getState()] returns. *)
Module SimState.
Record t : Type := mk {
  scanId : string;
  location : Viewpoint.t;
  viewIndex : Z;
  heading : R;
  elevation : R;
  step : nat;
  navigableLocations : list Viewpoint.t
}.
End SimState.

(** [WorldState = namedtuple("WorldState", ["scanId", "viewpointId",
    "heading", "elevation"])] *)
Module WorldState.
Record t : Type := mk {
  scanId : string;
  viewpointId : string;
  heading : R;
  elevation : R
}.
End WorldState.

(** The calls a [MatterSim.Simulator] object can receive from this file. *)
Inductive SimCall : Type :=
| setRenderingEnabled (b : bool)
| setDiscretizedViewingAngles (b : bool)
| setCameraResolution (w h : Z)
| setCameraVFOV (vfov : R)
| init
| newEpisode (scanId viewpointId : string) (heading elevation : R)
| makeAction (index heading elevation : Z).

(** A simulator object: its identity and the calls made on it, oldest
    first.  A method call on the object appends to [calls]. *)
Module Sim.
Record t : Type := mk { id : nat; calls : list SimCall }.

Definition call (sim : t) (c : SimCall) : t := mk (id sim) (calls sim ++ [c]).
End Sim.

Definition load_world_state (sim : Sim.t) (world_state : WorldState.t) : Sim.t :=
  Sim.call sim (newEpisode (WorldState.scanId world_state)
                           (WorldState.viewpointId world_state)
                           (WorldState.heading world_state)
                           (WorldState.elevation world_state)).

(** The attributes of [ImageFeatures] that [EnvBatch] reads. *)
Module ImageFeatures.
Record t : Type := mk { image_w : Z; image_h : Z; vfov : Z }.

(** [_make_id]: the key of a viewpoint in the feature table. *)
Definition _make_id (scanId viewpointId : string) : string :=
  scanId +:+ "_" +:+ viewpointId.
End ImageFeatures.

(** [math.radians] *)
Definition radians (deg : Z) : R := (IZR deg * PI / 180)%R.

(** ** [math.atan2] on the reals *)

Definition atan2 (y x : R) : R :=
  if decide (0 < x)%R then atan (y / x)
  else if decide (x < 0)%R then
    if decide (y < 0)%R then (atan (y / x) - PI)%R else (atan (y / x) + PI)%R
  else if decide (0 < y)%R then (PI / 2)%R
  else if decide (y < 0)%R then (- (PI / 2))%R
  else 0%R.

(** ** The [random] module

    The generator is the sequence of raw draws its seed determines and the
    number of draws used so far.  [random.shuffle] is the Fisher-Yates loop
    of the Python library:
    [for i in reversed(range(1, len(x))): j = randbelow(i + 1);
     x[i], x[j] = x[j], x[i]]. *)
Module random.
Record state : Type := mk { draws : nat → nat; used : nat }.

Definition randbelow (n : nat) (g : state) : nat * state :=
  ((draws g (used g) `mod` n)%nat, mk (draws g) (S (used g))).

(** [x[i], x[j] = x[j], x[i]] *)
Definition swap {A : Type} (x : list A) (i j : nat) : list A :=
  match x !! i, x !! j with
  | Some xi, Some xj => <[j := xi]> (<[i := xj]> x)
  | _, _ => x
  end.

(** The loop from index [i] down to index 1. *)
Fixpoint shuffle_from {A : Type} (i : nat) (x : list A) (g : state) : list A * state :=
  match i with
  | O => (x, g)
  | S i' =>
      let '(j, g') := randbelow (S i) g in
      shuffle_from i' (swap x i j) g'
  end.

Definition shuffle {A : Type} (x : list A) (g : state) : list A * state :=
  shuffle_from (length x - 1) x g.
End random.

(** ** Batched values

    A batched argument or result is a list with one entry per agent, or,
    when [beamed], a list of lists with one entry per beam slot. *)
Definition batch_of (beamed : bool) (A : Type) : Type :=
  if beamed then list (list A) else list A.

Definition batch_len {A : Type} (beamed : bool) : batch_of beamed A → nat :=
  match beamed with
  | true => λ l, length l
  | false => λ l, length l
  end.

(** Modelled from the spec: [utils.structured_map], which is imported but
    not defined in this file: one batch-map over (simulators, arguments)
    with the nesting given by a flag.  Entries are paired by position and the
    pairing stops at the shorter side.  [f] acts on the simulator object it
    is given; an exception in [f] ends the whole map.

    [map_beam] is the inner map over one beam, [map_first_slot] the map over
    the view [(s[0] for s in sims)], whose [s[0]] is evaluated when the entry
    is paired. *)
Fixpoint map_beam {A : Type} (f : Sim.t → A → result Sim.t)
    (beam : list Sim.t) (args : list A) : result (list Sim.t) :=
  match beam, args with
  | sim :: beam', a :: args' =>
      sim' ← f sim a;
      rest ← map_beam f beam' args';
      Ok (sim' :: rest)
  | _, _ => Ok beam
  end.

Fixpoint map_nested {A : Type} (f : Sim.t → A → result Sim.t)
    (sims : list (list Sim.t)) (args : list (list A)) : result (list (list Sim.t)) :=
  match sims, args with
  | beam :: sims', a :: args' =>
      beam' ← map_beam f beam a;
      rest ← map_nested f sims' args';
      Ok (beam' :: rest)
  | _, _ => Ok sims
  end.

Fixpoint map_first_slot {A : Type} (f : Sim.t → A → result Sim.t)
    (sims : list (list Sim.t)) (args : list A) : result (list (list Sim.t)) :=
  match sims with
  | [] => Ok []
  | beam :: sims' =>
      sim ← index beam 0;
      match args with
      | [] => Ok sims
      | a :: args' =>
          sim' ← f sim a;
          rest ← map_first_slot f sims' args';
          Ok (<[0%nat := sim']> beam :: rest)
      end
  end.

Definition structured_map {A : Type} (f : Sim.t → A → result Sim.t)
    (nested : bool) (sims : list (list Sim.t))
    : batch_of nested A → result (list (list Sim.t)) :=
  match nested with
  | true => λ args, map_nested f sims args
  | false => λ args, map_first_slot f sims args
  end.

(** ** [EnvBatch] *)

Module EnvBatch.
Record t : Type := mk {
  sims : list (list Sim.t);
  batch_size : nat;
  beam_size : nat;
  image_features : ImageFeatures.t
}.

(** [MatterSim.Simulator()] and the five configuration calls; [id] is the
    identity of the new object. *)
Definition new_sim (image_features : ImageFeatures.t) (id : nat) : Sim.t :=
  Sim.mk id [ setRenderingEnabled false;
              setDiscretizedViewingAngles true;
              setCameraResolution (ImageFeatures.image_w image_features)
                                  (ImageFeatures.image_h image_features);
              setCameraVFOV (radians (ImageFeatures.vfov image_features));
              init ].

(** [for j in range(beam_size)]: the beam and the number of objects
    constructed so far. *)
Fixpoint new_beam (image_features : ImageFeatures.t) (beam_size : nat)
    (constructed : nat) : list Sim.t * nat :=
  match beam_size with
  | O => ([], constructed)
  | S n =>
      let '(beam, constructed') := new_beam image_features n (S constructed) in
      (new_sim image_features constructed :: beam, constructed')
  end.

(** [for i in range(batch_size)] *)
Fixpoint new_sims (image_features : ImageFeatures.t) (batch_size beam_size : nat)
    (constructed : nat) : list (list Sim.t) * nat :=
  match batch_size with
  | O => ([], constructed)
  | S n =>
      let '(beam, constructed') := new_beam image_features beam_size constructed in
      let '(rest, constructed'') := new_sims image_features n beam_size constructed' in
      (beam :: rest, constructed'')
  end.

(** [EnvBatch(image_features, batch_size, beam_size)], threading the number
    of simulator objects constructed in the process. *)
Definition __init__ (image_features : ImageFeatures.t) (batch_size beam_size : nat)
    (constructed : nat) : t * nat :=
  let '(sims, constructed') := new_sims image_features batch_size beam_size constructed in
  (mk sims batch_size beam_size image_features, constructed').

(** [world_states.append([world_state])] or [world_states.append(world_state)] *)
Definition append_state (beamed : bool)
    : batch_of beamed WorldState.t → WorldState.t → batch_of beamed WorldState.t :=
  match beamed with
  | true => λ world_states world_state, world_states ++ [[world_state]]
  | false => λ world_states world_state, world_states ++ [world_state]
  end.

Definition no_states (beamed : bool) : batch_of beamed WorldState.t :=
  match beamed with
  | true => []
  | false => []
  end.

(** The loop of [newEpisodes] from agent [i] on. *)
Fixpoint newEpisodes_loop (beamed : bool) (i : nat)
    (items : list (string * string * R))
    (sims : list (list Sim.t)) (world_states : batch_of beamed WorldState.t)
    : result (batch_of beamed WorldState.t * list (list Sim.t)) :=
  match items with
  | [] => Ok (world_states, sims)
  | (scanId, viewpointId, heading) :: rest =>
      let world_state := WorldState.mk scanId viewpointId heading 0 in
      let world_states := append_state beamed world_states world_state in
      beam ← index sims i;
      sim ← index beam 0;
      let sims := <[i := <[0%nat := load_world_state sim world_state]> beam]> sims in
      newEpisodes_loop beamed (S i) rest sims world_states
  end.

Definition newEpisodes (self : t) (scanIds viewpointIds : list string)
    (headings : list R) (beamed : bool)
    : result (batch_of beamed WorldState.t * t) :=
  _ ← assert (bool_decide (length scanIds = length viewpointIds));
  _ ← assert (bool_decide (length headings = length viewpointIds));
  _ ← assert (bool_decide (length scanIds = length (sims self)));
  '(world_states, sims') ←
    newEpisodes_loop beamed 0 (zip (zip scanIds viewpointIds) headings)
                     (sims self) (no_states beamed);
  _ ← assert (bool_decide (batch_len beamed world_states = length scanIds));
  Ok (world_states,
      mk sims' (batch_size self) (beam_size self) (image_features self)).

(** The local function [f] of [makeSimpleActions]. *)
Definition makeSimpleActions_f (sim : Sim.t) (index : Z) : result Sim.t :=
  if decide (index = 0) then Ok (Sim.call sim (makeAction 1 0 0))
  else if decide (index = 1) then Ok (Sim.call sim (makeAction 0 (-1) 0))
  else if decide (index = 2) then Ok (Sim.call sim (makeAction 0 1 0))
  else if decide (index = 3) then Ok (Sim.call sim (makeAction 0 0 1))
  else if decide (index = 4) then Ok (Sim.call sim (makeAction 0 0 (-1)))
  else Raise (SystemExit ("Invalid simple action " +:+ pretty index)).

(** [beamed] comes first because it fixes the shape of [simple_indices]. *)
Definition makeSimpleActions (self : t) (beamed : bool)
    (simple_indices : batch_of beamed Z) : result t :=
  sims' ← structured_map makeSimpleActions_f beamed (sims self) simple_indices;
  Ok (mk sims' (batch_size self) (beam_size self) (image_features self)).
End EnvBatch.

(** ** [R2RBatch] *)

(** One entry of [self.data]: the keys of the dict that this file reads. *)
Module Item.
Record t : Type := mk {
  instr_id : string;
  scan : string;
  path : list string;
  heading : R;
  instructions : string;
  instr_length : option Z
}.
End Item.

(** One record of [load_datasets(splits)]: the keys this file reads. *)
Module Dataset.
Record t : Type := mk {
  path_id : Z;
  scan : string;
  path : list string;
  heading : R;
  instructions : list string
}.
End Dataset.

(** The outcome of a method that reads attributes which may not be set:
    what the body returns or raises, or the [AttributeError] of the read. *)
Inductive outcome (A : Type) : Type :=
| Returned (r : result A)
| AttributeError.
Arguments Returned {A} r.
Arguments AttributeError {A}.

Module R2RBatch.
(** An attribute that may not be set yet is an [option]. *)
Record t : Type := mk {
  image_features : ImageFeatures.t;
  data : list Item.t;
  ix : nat;
  batch_size : nat;
  graphs : gmap string (gmap string Point);
  paths : gmap string (gmap string (gmap string (list string)));
  beam_size : option nat;
  env : option EnvBatch.t;
  batch : option (list Item.t)
}.

Definition set_ix (self : t) (ix' : nat) : t :=
  mk (image_features self) (data self) ix' (batch_size self) (graphs self)
     (paths self) (beam_size self) (env self) (batch self).

Definition set_data (self : t) (data' : list Item.t) : t :=
  mk (image_features self) data' (ix self) (batch_size self) (graphs self)
     (paths self) (beam_size self) (env self) (batch self).

Definition set_batch (self : t) (batch' : list Item.t) : t :=
  mk (image_features self) (data self) (ix self) (batch_size self) (graphs self)
     (paths self) (beam_size self) (env self) (Some batch').

Definition set_env (self : t) (beam_size' : nat) (env' : EnvBatch.t) : t :=
  mk (image_features self) (data self) (ix self) (batch_size self) (graphs self)
     (paths self) (Some beam_size') (Some env') (batch self).

(** [set_beam_size]: the [try] fails when [self.beam_size] is not set. *)
Definition set_beam_size (self : t) (beam_size' : nat) (constructed : nat) : t * nat :=
  let invalid :=
    match beam_size self with
    | Some current => bool_decide (beam_size' ≠ current)
    | None => true
    end in
  if invalid then
    let '(env', constructed') :=
      EnvBatch.__init__ (image_features self) (batch_size self) beam_size' constructed in
    (set_env self beam_size' env', constructed')
  else (self, constructed).

(** [sorted(batch, key=lambda item: item['instr_length'], reverse=True)]:
    a stable sort, longest first; [KeyError] when an item has no length. *)
Fixpoint insert_desc (k : Z) (item : Item.t) (sorted : list (Z * Item.t))
    : list (Z * Item.t) :=
  match sorted with
  | [] => [(k, item)]
  | (k', item') :: rest =>
      if bool_decide (k' > k) then (k', item') :: insert_desc k item rest
      else (k, item) :: sorted
  end.

Fixpoint sorted_desc (batch : list Item.t) : result (list (Z * Item.t)) :=
  match batch with
  | [] => Ok []
  | item :: rest =>
      k ← match Item.instr_length item with
          | Some k => Ok k
          | None => Raise KeyError
          end;
      sorted ← sorted_desc rest;
      Ok (insert_desc k item sorted)
  end.

Definition _next_minibatch (self : t) (sort : bool) (g : random.state)
    : result (t * random.state) :=
  let batch := take (batch_size self) (drop (ix self) (data self)) in
  let '(self, batch, g) :=
    if bool_decide (length batch < batch_size self)%nat then
      let '(data', g') := random.shuffle (data self) g in
      let self := set_data self data' in
      let self := set_ix self (batch_size self - length batch)%nat in
      (self, batch ++ take (ix self) (data self), g')
    else
      (set_ix self (ix self + batch_size self)%nat, batch, g) in
  batch ← (if sort then (λ sorted, sorted.*2) <$> sorted_desc batch else Ok batch);
  Ok (set_batch self batch, g).

(** [reset_epoch] *)
Definition reset_epoch (self : t) : t := set_ix self 0%nat.

(** [n] successive calls of [_next_minibatch], with the batches drawn. *)
Fixpoint draw (n : nat) (self : t) (sort : bool) (g : random.state)
    : result (list (list Item.t) * t * random.state) :=
  match n with
  | O => Ok ([], self, g)
  | S n' =>
      '(self1, g1) ← _next_minibatch self sort g;
      '(batches, self2, g2) ← draw n' self1 sort g1;
      Ok (default [] (batch self1) :: batches, self2, g2)
  end.

(** *** The shortest-path oracle *)

Definition NOOP : Action := (0, 0, 0).
Definition TURN_RIGHT : Action := (0, 1, 0).
Definition TURN_LEFT : Action := (0, -1, 0).
Definition LOOK_UP : Action := (0, 0, 1).
Definition LOOK_DOWN : Action := (0, 0, -1).

(** The body of the loop at a location that is the next viewpoint. *)
Definition face_and_move (i : nat) (loc : Viewpoint.t) (viewIndex : Z) : Action :=
  if decide (Viewpoint.rel_heading loc > PI / 6)%R then TURN_RIGHT
  else if decide (Viewpoint.rel_heading loc < - PI / 6)%R then TURN_LEFT
  else if bool_decide (Viewpoint.rel_elevation loc > PI / 6)%R
          && bool_decide (viewIndex `div` 12 < 2) then LOOK_UP
  else if bool_decide (Viewpoint.rel_elevation loc < - PI / 6)%R
          && bool_decide (viewIndex `div` 12 > 0) then LOOK_DOWN
  else (Z.of_nat i, 0, 0).

(** [for i,loc in enumerate(state.navigableLocations)], from index [i]:
    the action returned inside the loop, or [None] when the loop ends. *)
Fixpoint scan_navigable (i : nat) (locs : list Viewpoint.t)
    (nextViewpointId : string) (viewIndex : Z) : option Action :=
  match locs with
  | [] => None
  | loc :: rest =>
      if decide (Viewpoint.viewpointId loc = nextViewpointId)
      then Some (face_and_move i loc viewIndex)
      else scan_navigable (S i) rest nextViewpointId viewIndex
  end.

(** [math.pi/2.0 - math.atan2(target_rel[1], target_rel[0])], plus
    [2.0*math.pi] when negative. *)
Definition target_heading (target_rel : Point) : R :=
  let th := (PI / 2 - atan2 (py target_rel) (px target_rel))%R in
  if decide (th < 0)%R then (th + 2 * PI)%R else th.

(** The two tests on [state.heading] and [target_heading]. *)
Definition turn_towards (heading target_heading : R) : Action :=
  if bool_decide (heading > target_heading)%R
     && bool_decide (heading - target_heading < PI)%R then TURN_LEFT
  else if bool_decide (target_heading > heading)%R
     && bool_decide (target_heading - heading > PI)%R then TURN_LEFT
  else TURN_RIGHT.

(** [self.paths[state.scanId][state.location.viewpointId][goalViewpointId][1]] *)
Definition next_hop (self : t) (state : SimState.t)
    (goalViewpointId : string) : result string :=
  by_src ← getitem (paths self) (SimState.scanId state);
  by_dst ← getitem by_src (Viewpoint.viewpointId (SimState.location state));
  path ← getitem by_dst goalViewpointId;
  index path 1.

Definition _shortest_path_action (self : t) (state : SimState.t)
    (goalViewpointId : string) : result Action :=
  let here := SimState.location state in
  if decide (Viewpoint.viewpointId here = goalViewpointId) then Ok NOOP
  else
    nextViewpointId ← next_hop self state goalViewpointId;
    match scan_navigable 0 (SimState.navigableLocations state)
            nextViewpointId (SimState.viewIndex state) with
    | Some a => Ok a
    | None =>
        if decide (SimState.viewIndex state `div` 12 = 0) then Ok LOOK_UP
        else if decide (SimState.viewIndex state `div` 12 = 2) then Ok LOOK_DOWN
        else
          G ← getitem (graphs self) (SimState.scanId state);
          position ← getitem G nextViewpointId;
          let target_rel := point_sub position (Viewpoint.point here) in
          Ok (turn_towards (SimState.heading state) (target_heading target_rel))
    end.

(** *** The constructor *)

(** The inner loop of [__init__] over the instructions of one record, from
    index [j] on: a copy of the record with
    ['%s_%d' % (item['path_id'], j)] as [instr_id], the instruction as
    [instructions] and, with a tokenizer, the length that
    [encode_sentence] returns.  The encoding itself is only handed on to
    the observation and is left out. *)
Fixpoint split_instructions (tokenizer : option (string → Z)) (item : Dataset.t)
    (j : nat) (instructions : list string) : list Item.t :=
  match instructions with
  | [] => []
  | instr :: rest =>
      Item.mk (pretty (Dataset.path_id item) +:+ "_" +:+ pretty j)
              (Dataset.scan item) (Dataset.path item) (Dataset.heading item)
              instr ((λ encode_length, encode_length instr) <$> tokenizer)
        :: split_instructions tokenizer item (S j) rest
  end.

(** [self.data] before the shuffle. *)
Definition split_dataset (tokenizer : option (string → Z))
    (dataset : list Dataset.t) : list Item.t :=
  item ← dataset; split_instructions tokenizer item 0 (Dataset.instructions item).

(** [R2RBatch(image_features, batch_size, seed, splits, tokenizer,
    beam_size)].  [dataset] is what [load_datasets(splits)] returns,
    [seeded] the generator that [random.seed(seed)] leaves, and [load_nav]
    stands for [_load_nav_graphs]: the graphs and all-pairs shortest paths
    of a set of scans. *)
Definition __init__ (image_features : ImageFeatures.t) (batch_size : nat)
    (seeded : random.state) (dataset : list Dataset.t)
    (tokenizer : option (string → Z)) (beam_size : nat)
    (load_nav : gset string →
                gmap string (gmap string Point) *
                gmap string (gmap string (gmap string (list string))))
    (constructed : nat) : t * random.state * nat :=
  let data := split_dataset tokenizer dataset in
  let scans : gset string := list_to_set (Item.scan <$> data) in
  let '(data, g) := random.shuffle data seeded in
  let '(graphs, paths) := load_nav scans in
  let self := mk image_features data 0 batch_size graphs paths None None None in
  let '(self, constructed) := set_beam_size self beam_size constructed in
  (self, g, constructed).

(** *** [reset] *)

(** [self.env] after its simulators were acted on. *)
Definition with_env (self : t) (env' : EnvBatch.t) : t :=
  mk (image_features self) (data self) (ix self) (batch_size self) (graphs self)
     (paths self) (beam_size self) (Some env') (batch self).

Definition reset (self : t) (sort beamed load_next_minibatch : bool)
    (g : random.state)
    : outcome (batch_of beamed WorldState.t * t * random.state) :=
  match (if load_next_minibatch then _next_minibatch self sort g else Ok (self, g)) with
  | Raise e => Returned (Raise e)
  | Ok (self, g) =>
      match batch self with
      | None => AttributeError
      | Some batch =>
          if bool_decide (length batch = batch_size self) then
            let scanIds := Item.scan <$> batch in
            match mapM (λ item, index (Item.path item) 0) batch with
            | Raise e => Returned (Raise e)
            | Ok viewpointIds =>
                let headings := Item.heading <$> batch in
                match env self with
                | None => AttributeError
                | Some env =>
                    Returned (
                      '(world_states, env') ←
                        EnvBatch.newEpisodes env scanIds viewpointIds headings beamed;
                      Ok (world_states, with_env self env', g))
                end
            end
          else Returned (Raise AssertionError)
      end
  end.
End R2RBatch.

(** ** The rules as the specification words them *)

(** The rule for a next hop found in the navigable list (4.4, a to e):
    looking up is tied to the bottom band, looking down to the top band. *)
Definition specified_visible_rule (i : nat) (rh re : R) (viewIndex : Z) : Action :=
  if decide (rh > PI / 6)%R then (0, 1, 0)
  else if decide (rh < - (PI / 6))%R then (0, -1, 0)
  else if bool_decide (re > PI / 6)%R && bool_decide (viewIndex `div` 12 = 0)
  then (0, 0, 1)
  else if bool_decide (re < - (PI / 6))%R && bool_decide (viewIndex `div` 12 = 2)
  then (0, 0, -1)
  else (Z.of_nat i, 0, 0).

(** Headings grow clockwise and are taken modulo a full turn: turning
    left by [delta] from heading [h] ends at bearing [t] when
    [h - delta] and [t] differ by a whole number of turns, turning right
    when [h + delta] and [t] do. *)
Definition left_turn_reaches (h t delta : R) : Prop :=
  ∃ k : Z, (h - delta = t + 2 * PI * IZR k)%R.

Definition right_turn_reaches (h t delta : R) : Prop :=
  ∃ k : Z, (h + delta = t + 2 * PI * IZR k)%R.

(** The shorter angular path from [h] to [t] is leftward: some left turn
    reaches [t] and is strictly shorter than every right turn that does. *)
Definition left_is_shorter (h t : R) : Prop :=
  ∃ delta, (0 <= delta)%R ∧ left_turn_reaches h t delta ∧
    ∀ delta', (0 <= delta')%R → right_turn_reaches h t delta' → (delta < delta')%R.

(** The minibatch cursor as the specification words it (4.3): mid-epoch
    when [ix < N - batchSize], epoch-wrap when [ix >= N - batchSize]; the
    result is the batch, the pool, the cursor and the generator. *)
Definition specified_next_minibatch (data : list Item.t) (ix batch_size : nat)
    (g : random.state) : list Item.t * list Item.t * nat * random.state :=
  if bool_decide (Z.of_nat ix < Z.of_nat (length data) - Z.of_nat batch_size) then
    (take batch_size (drop ix data), data, (ix + batch_size)%nat, g)
  else
    let leftover := drop ix data in
    let '(data', g') := random.shuffle data g in
    let remainder := (batch_size - length leftover)%nat in
    (leftover ++ take remainder data', data', remainder, g').

(** The call ends the process: [sys.exit] with some message. *)
Definition exits {A : Type} (r : result A) : Prop := ∃ msg, r = Raise (SystemExit msg).

(** The 5-way map of the simple interface (4.2): 0 forward, 1 turn left,
    2 turn right, 3 look up, 4 look down. *)
Definition simple_action_map : gmap Z Action :=
  {[ 0 := (1, 0, 0); 1 := (0, -1, 0); 2 := (0, 1, 0); 3 := (0, 0, 1); 4 := (0, 0, -1) ]}.

(** The simulator after the primitive action of a simple index. *)
Definition apply_simple (sim : Sim.t) (index : Z) : Sim.t :=
  match simple_action_map !! index with
  | Some (i, h, e) => Sim.call sim (makeAction i h e)
  | None => sim
  end.

(** An [EnvBatch] as its constructor leaves it, with at least one beam
    slot: [batch_size] beams of [beam_size] simulators each. *)
Definition well_shaped (env : EnvBatch.t) : Prop :=
  length (EnvBatch.sims env) = EnvBatch.batch_size env ∧
  Forall (λ beam, length beam = EnvBatch.beam_size env) (EnvBatch.sims env) ∧
  (0 < EnvBatch.beam_size env)%nat.

(** Beam slot 0 of a beam after [newEpisode], the other slots as they were. *)
Definition start_slot0 (beam : list Sim.t) (world_state : WorldState.t) : list Sim.t :=
  match beam with
  | sim :: others => load_world_state sim world_state :: others
  | [] => []
  end.

(** Beam slot 0 of a beam after a simple action. *)
Definition act_slot0 (beam : list Sim.t) (index : Z) : list Sim.t :=
  match beam with
  | sim :: others => apply_simple sim index :: others
  | [] => []
  end.

(** The initial pose of an agent: its scan, viewpoint and heading, with
    elevation 0. *)
Definition initial_pose (item : string * string * R) : WorldState.t :=
  WorldState.mk item.1.1 item.1.2 item.2 0.

(** Task [a] has at least as many instruction tokens as task [b]. *)
Definition at_least_as_long (a b : Item.t) : Prop :=
  match Item.instr_length a, Item.instr_length b with
  | Some ka, Some kb => kb ≤ ka
  | _, _ => False
  end.

(** The keys of a list of (key, task) pairs are the lengths of its tasks. *)
Definition keyed (l : list (Z * Item.t)) : Prop :=
  Forall (λ p, Item.instr_length p.2 = Some p.1) l.

(** The calls a simulator has received when [EnvBatch] has built it. *)
Definition configured (image_features : ImageFeatures.t) : list SimCall :=
  [ setRenderingEnabled false;
    setDiscretizedViewingAngles true;
    setCameraResolution (ImageFeatures.image_w image_features)
                        (ImageFeatures.image_h image_features);
    setCameraVFOV (radians (ImageFeatures.vfov image_features));
    init ].

(** The identities of the simulators of an [EnvBatch], slot by slot. *)
Definition identities (sims : list (list Sim.t)) : list (list nat) :=
  (λ beam : list Sim.t, Sim.id <$> beam) <$> sims.

(** [c in s], for a character and a string. *)
Fixpoint has_char (c : Ascii.ascii) (s : string) : bool :=
  match s with
  | EmptyString => false
  | String a s' => bool_decide (a = c) || has_char c s'
  end.

(** [entry] is the task made from instruction [j] of the dataset record
    [item]. *)
Definition made_from (tokenizer : option (string → Z)) (item : Dataset.t)
    (j : nat) (entry : Item.t) : Prop :=
  ∃ instr, Dataset.instructions item !! j = Some instr ∧
    entry = Item.mk (pretty (Dataset.path_id item) +:+ "_" +:+ pretty j)
              (Dataset.scan item) (Dataset.path item) (Dataset.heading item)
              instr ((λ encode_length, encode_length instr) <$> tokenizer).

(** An [R2RBatch] whose environment is set, has at least one beam slot
    and holds one beam per task of a batch. *)
Definition ready (self : R2RBatch.t) : Prop :=
  ∃ env, R2RBatch.env self = Some env ∧ well_shaped env ∧
         EnvBatch.batch_size env = R2RBatch.batch_size self.

(** A list of poses as [reset] returns it: bare, or each pose in a beam
    of its own. *)
Definition as_batch (beamed : bool) (poses : list WorldState.t)
    : batch_of beamed WorldState.t :=
  match beamed with
  | true => (λ pose, [pose]) <$> poses
  | false => poses
  end.

(** [pose] starts the task [item]: at the first viewpoint of its path,
    with its heading and elevation 0. *)
Definition starts (item : Item.t) (pose : WorldState.t) : Prop :=
  ∃ viewpointId, Item.path item !! 0%nat = Some viewpointId ∧
    pose = WorldState.mk (Item.scan item) viewpointId (Item.heading item) 0.

(** ** Concrete inputs *)

Module Ex.
Definition features : ImageFeatures.t := ImageFeatures.mk 640 480 60.

(** A scan with the path A, B, G; B lies two units north of A. *)
Definition self : R2RBatch.t :=
  R2RBatch.mk features [] 0 1
    {[ "scan" := {[ "B" := mkPoint 0 2 0 ]} ]}
    {[ "scan" := {[ "A" := {[ "G" := ["A"; "B"; "G"] ]} ]} ]}
    None None None.

Definition here : Viewpoint.t := Viewpoint.mk "A" (mkPoint 0 0 0) 0 0.

(** B seen straight ahead, one radian above the camera axis. *)
Definition hop_above : Viewpoint.t := Viewpoint.mk "B" (mkPoint 0 2 0) 0 1.

(** B seen straight ahead and level. *)
Definition hop_level : Viewpoint.t := Viewpoint.mk "B" (mkPoint 0 2 0) 0 0.

(** At A in the middle band (view index 12), B navigable at index 1. *)
Definition state_above : SimState.t :=
  SimState.mk "scan" here 12 0 0 0 [here; hop_above].

Definition state_level : SimState.t :=
  SimState.mk "scan" here 12 0 0 0 [here; hop_level].

(** At the goal, with no tables at all. *)
Definition bare : R2RBatch.t := R2RBatch.mk features [] 0 1 ∅ ∅ None None None.

Definition state_at_goal : SimState.t := SimState.mk "scan" here 0 0 0 0 [].

(** At A in the middle band, heading one radian east of north, with B
    (due north) not among the navigable locations. *)
Definition state_blind : SimState.t :=
  SimState.mk "scan" here 12 1 0 0 [here].

(** Four tasks, batches of two, the cursor at 2: the last two tasks are
    exactly one batch. *)
Definition task (instr_id : string) : Item.t :=
  Item.mk instr_id "scan" ["A"; "B"; "G"] 0 "walk to the goal" None.

Definition pool : list Item.t := [task "7_0"; task "7_1"; task "7_2"; task "8_0"].

Definition at_last_batch : R2RBatch.t :=
  R2RBatch.mk features pool 2 2 ∅ ∅ None None None.

(** The same pool with the cursor at 3: one task is left. *)
Definition at_wrap : R2RBatch.t :=
  R2RBatch.mk features pool 3 2 ∅ ∅ None None None.

(** Four tokenized tasks, two of them of the same length, in one batch. *)
Definition task_of_length (instr_id : string) (k : Z) : Item.t :=
  Item.mk instr_id "scan" ["A"; "B"; "G"] 0 "walk to the goal" (Some k).

Definition tokenized_pool : list Item.t :=
  [task_of_length "1_0" 5; task_of_length "1_1" 9;
   task_of_length "2_0" 5; task_of_length "2_1" 7].

Definition tokenized : R2RBatch.t :=
  R2RBatch.mk features tokenized_pool 0 4 ∅ ∅ None None None.

(** The path table of [self] without any graph, and the blind state with
    the camera in the bottom band. *)
Definition paths_only : R2RBatch.t :=
  R2RBatch.mk features [] 0 1 ∅
    {[ "scan" := {[ "A" := {[ "G" := ["A"; "B"; "G"] ]} ]} ]}
    None None None.

Definition state_blind_low : SimState.t :=
  SimState.mk "scan" here 0 1 0 0 [here].

(** A generator whose raw draws are all zero. *)
Definition zeros : random.state := random.mk (λ _, 0%nat) 0.

(** Two agents with a beam of two simulators each, the first four
    simulator objects of the process. *)
Definition env22 : EnvBatch.t := (EnvBatch.__init__ features 2 2 0).1.

(** Two dataset records of one scan, with two and one instructions, a
    tokenizer that counts characters, and a loader that finds no graph. *)
Definition records : list Dataset.t :=
  [ Dataset.mk 7 "scan" ["A"; "B"; "G"] 0 ["go left"; "turn and go"];
    Dataset.mk 8 "scan" ["G"; "B"] 1 ["back"] ].

Definition count_chars : option (string → Z) :=
  Some (λ instr, Z.of_nat (String.length instr)).

Definition no_graphs (scans : gset string)
    : gmap string (gmap string Point) *
      gmap string (gmap string (gmap string (list string))) := (∅, ∅).

(** The environment built from them, with batches of two and one beam
    slot. *)
Definition built : R2RBatch.t :=
  (R2RBatch.__init__ features 2 zeros records count_chars 1 no_graphs 0).1.1.

(** An environment in the middle of an epoch, its first batch loaded. *)
Definition started : R2RBatch.t :=
  R2RBatch.mk features pool 2 2 ∅ ∅ (Some 1%nat)
    (Some (EnvBatch.__init__ features 2 1 0).1)
    (Some [task "7_0"; task "7_1"]).

(** A pool of one task whose reference path is empty. *)
Definition pathless : R2RBatch.t :=
  R2RBatch.mk features [Item.mk "9_0" "scan" [] 0 "stay" None] 0 1 ∅ ∅ (Some 1%nat)
    (Some (EnvBatch.__init__ features 1 1 0).1) None.

End Ex.

(** * Properties *)

Import R2RBatch.

Ltac pi_bounds :=
  pose proof PI_RGT_0; pose proof PI_4; pose proof PI2_3_2.

(** ** Results of the error monad *)

Lemma bind_Ok_inv {A B : Type} (m : result A) (f : A → result B) (b : B) :
  m ≫= f = Ok b → ∃ a, m = Ok a ∧ f a = Ok b.
Proof. destruct m as [a|e]; simpl; [eauto | discriminate]. Qed.

Lemma getitem_Ok {V : Type} (d : gmap string V) (k : string) (v : V) :
  getitem d k = Ok v ↔ d !! k = Some v.
Proof. unfold getitem. destruct (d !! k); split; congruence. Qed.

Lemma index_Ok {A : Type} (l : list A) (i : nat) (a : A) :
  index l i = Ok a ↔ l !! i = Some a.
Proof. unfold index. destruct (l !! i); split; congruence. Qed.

(** ** The loop over the navigable locations *)

Lemma scan_navigable_first (locs : list Viewpoint.t) (next : string) (v : Z) :
  ∀ (i k : nat) (loc : Viewpoint.t),
    locs !! k = Some loc →
    Viewpoint.viewpointId loc = next →
    (∀ j l, (j < k)%nat → locs !! j = Some l → Viewpoint.viewpointId l ≠ next) →
    scan_navigable i locs next v = Some (face_and_move (i + k) loc v).
Proof.
  induction locs as [|l0 locs IH]; intros i k loc Hk Hid Hfirst; [done|].
  destruct k as [|k]; simpl in *.
  - injection Hk as ->. rewrite decide_True by done. by rewrite Nat.add_0_r.
  - rewrite decide_False by (apply (Hfirst 0%nat); [lia | done]).
    rewrite (IH (S i) k loc); [f_equal; f_equal; lia | done | done |].
    intros j l Hj Hl. apply (Hfirst (S j)); [lia | done].
Qed.

Lemma scan_navigable_Some (locs : list Viewpoint.t) (next : string) (v : Z) :
  ∀ (i : nat) (a : Action),
    scan_navigable i locs next v = Some a →
    ∃ (k : nat) (loc : Viewpoint.t),
      locs !! k = Some loc ∧ Viewpoint.viewpointId loc = next ∧
      a = face_and_move (i + k) loc v.
Proof.
  induction locs as [|l0 locs IH]; intros i a H; [done|].
  simpl in H. case_decide as Hid.
  - exists 0%nat, l0. rewrite Nat.add_0_r. by injection H as <-.
  - destruct (IH _ _ H) as (k & loc & Hk & Hloc & ->).
    exists (S k), loc. split_and!; [done | done | f_equal; lia].
Qed.

Lemma scan_navigable_None (locs : list Viewpoint.t) (next : string) (v : Z) (i : nat) :
  scan_navigable i locs next v = None ↔
  Forall (λ loc, Viewpoint.viewpointId loc ≠ next) locs.
Proof.
  revert i. induction locs as [|l0 locs IH]; intros i; simpl.
  - split; [constructor | done].
  - case_decide as Hid.
    + split; [done | intros H; by inversion H].
    + rewrite IH. split; [by constructor | intros H; by inversion H].
Qed.

(** The five outcomes of the loop body. *)
Lemma face_and_move_cases (i : nat) (loc : Viewpoint.t) (v : Z) :
  let rh := Viewpoint.rel_heading loc in
  let re := Viewpoint.rel_elevation loc in
  (face_and_move i loc v = TURN_RIGHT ∧ (rh > PI / 6)%R) ∨
  (face_and_move i loc v = TURN_LEFT ∧ (rh < - PI / 6)%R) ∨
  (face_and_move i loc v = LOOK_UP ∧ (- PI / 6 <= rh <= PI / 6)%R ∧
     (re > PI / 6)%R ∧ v `div` 12 < 2) ∨
  (face_and_move i loc v = LOOK_DOWN ∧ (- PI / 6 <= rh <= PI / 6)%R ∧
     (re < - PI / 6)%R ∧ v `div` 12 > 0) ∨
  (face_and_move i loc v = (Z.of_nat i, 0, 0) ∧ (- PI / 6 <= rh <= PI / 6)%R).
Proof.
  intros rh re. unfold face_and_move. fold rh re.
  case_decide; [by left|]. case_decide; [by right; left|].
  assert (- PI / 6 <= rh <= PI / 6)%R by lra.
  destruct (bool_decide (re > PI / 6)%R) eqn:E1;
    destruct (bool_decide (v `div` 12 < 2)) eqn:E2; simpl;
    try (apply bool_decide_eq_true in E1, E2; by right; right; left);
    (destruct (bool_decide (re < - PI / 6)%R) eqn:E3;
     destruct (bool_decide (v `div` 12 > 0)) eqn:E4; simpl;
     try (apply bool_decide_eq_true in E3, E4; by right; right; right; left);
     by right; right; right; right).
Qed.

(** The oracle when it is not at the goal and the next hop is known. *)
Lemma oracle_not_at_goal (self : t) (state : SimState.t) (goal next : string) :
  Viewpoint.viewpointId (SimState.location state) ≠ goal →
  next_hop self state goal = Ok next →
  _shortest_path_action self state goal =
    match scan_navigable 0 (SimState.navigableLocations state) next
            (SimState.viewIndex state) with
    | Some a => Ok a
    | None =>
        if decide (SimState.viewIndex state `div` 12 = 0) then Ok LOOK_UP
        else if decide (SimState.viewIndex state `div` 12 = 2) then Ok LOOK_DOWN
        else
          G ← getitem (graphs self) (SimState.scanId state);
          position ← getitem G next;
          Ok (turn_towards (SimState.heading state)
                (target_heading (point_sub position
                   (Viewpoint.point (SimState.location state)))))
    end.
Proof.
  intros Hne Hnext. unfold _shortest_path_action.
  rewrite decide_False by done. by rewrite Hnext.
Qed.

(** ** The oracle: no-op at the goal, band gating, turn bound *)

(** C4. At the goal the oracle answers the no-op action (0,0,0), whatever
    the path table, the graphs and the navigable list hold: the statement
    quantifies over every [self] and every [state], empty tables included. *)
Theorem oracle_noop_at_goal (self : t) (state : SimState.t) (goal : string) :
  Viewpoint.viewpointId (SimState.location state) = goal →
  _shortest_path_action self state goal = Ok (0, 0, 0).
Proof.
  intros Hgoal. unfold _shortest_path_action.
  by rewrite decide_True.
Qed.

Lemma oracle_noop_at_goal_witness :
  _shortest_path_action Ex.bare Ex.state_at_goal "A" = Ok (0, 0, 0).
Proof. apply (oracle_noop_at_goal Ex.bare Ex.state_at_goal "A"). reflexivity. Defined.

(** What a successful answer of the oracle can be, by the place it was
    returned from. *)
Lemma oracle_Ok_inv (self : t) (state : SimState.t) (goal : string) (a : Action) :
  _shortest_path_action self state goal = Ok a →
  (Viewpoint.viewpointId (SimState.location state) = goal ∧ a = NOOP) ∨
  (∃ next, next_hop self state goal = Ok next ∧
     ((∃ k loc, SimState.navigableLocations state !! k = Some loc ∧
         Viewpoint.viewpointId loc = next ∧
         a = face_and_move k loc (SimState.viewIndex state)) ∨
      (SimState.viewIndex state `div` 12 = 0 ∧ a = LOOK_UP) ∨
      (SimState.viewIndex state `div` 12 = 2 ∧ a = LOOK_DOWN) ∨
      (SimState.viewIndex state `div` 12 ≠ 0 ∧
       SimState.viewIndex state `div` 12 ≠ 2 ∧
       (a = TURN_LEFT ∨ a = TURN_RIGHT)))).
Proof.
  unfold _shortest_path_action. case_decide as Hgoal.
  - intros [= <-]. by left.
  - intros H. apply bind_Ok_inv in H as (next & Hnext & H).
    right. exists next. split; [done|].
    destruct (scan_navigable _ _ _ _) as [a'|] eqn:Hscan.
    + injection H as ->. left.
      apply scan_navigable_Some in Hscan as (k & loc & ? & ? & ->). eauto.
    + right. case_decide; [injection H as <-; by left|].
      case_decide; [injection H as <-; by right; left|].
      apply bind_Ok_inv in H as (G & _ & H).
      apply bind_Ok_inv in H as (pos & _ & H).
      injection H as <-. right; right. split_and!; [done | done |].
      unfold turn_towards. repeat case_match; auto.
Qed.

(** C3. Whatever the state, the goal and the tables are, the oracle does
    not answer look-up (0,0,1) when the view index is in the top band
    ([viewIndex // 12 = 2]) and does not answer look-down (0,0,-1) when it
    is in the bottom band ([viewIndex // 12 = 0]). *)
Theorem oracle_band_gating (self : t) (state : SimState.t) (goal : string) :
  (SimState.viewIndex state `div` 12 = 2 →
     _shortest_path_action self state goal ≠ Ok (0, 0, 1)) ∧
  (SimState.viewIndex state `div` 12 = 0 →
     _shortest_path_action self state goal ≠ Ok (0, 0, -1)).
Proof.
  split; intros Hband Hres; apply oracle_Ok_inv in Hres;
    destruct Hres as [[_ [=]] | (next & _ & [(k & loc & _ & _ & Ha) | Hblind])].
  - destruct (face_and_move_cases k loc (SimState.viewIndex state))
      as [[E _]|[[E _]|[(E & _ & _ & Hb)|[(E & _)|[E _]]]]];
      rewrite E in Ha; try discriminate Ha. lia.
  - destruct Hblind as [[? _]|[[_ [=]]|(_ & ? & [[=]|[=]])]]. lia.
  - destruct (face_and_move_cases k loc (SimState.viewIndex state))
      as [[E _]|[[E _]|[(E & _)|[(E & _ & _ & Hb)|[E _]]]]];
      rewrite E in Ha; try discriminate Ha. lia.
  - destruct Hblind as [[_ [=]]|[[? _]|(_ & _ & [[=]|[=]])]]. lia.
Qed.

(** C5. When the oracle answers a move (i,0,0) with i > 0, the navigable
    location at index i is the next hop of the shortest path and its
    relative heading is at most 30 degrees (pi/6) in magnitude. *)
Theorem oracle_move_turn_bound (self : t) (state : SimState.t) (goal : string) (i : Z) :
  0 < i →
  _shortest_path_action self state goal = Ok (i, 0, 0) →
  ∃ loc, SimState.navigableLocations state !! Z.to_nat i = Some loc ∧
         next_hop self state goal = Ok (Viewpoint.viewpointId loc) ∧
         (Rabs (Viewpoint.rel_heading loc) <= PI / 6)%R.
Proof.
  intros Hi Hres. apply oracle_Ok_inv in Hres.
  destruct Hres as [[_ [=]] | (next & Hnext & [(k & loc & Hk & Hid & Ha) | Hblind])].
  - lia.
  - destruct (face_and_move_cases k loc (SimState.viewIndex state))
      as [[E _]|[[E _]|[(E & _)|[(E & _)|[E Hrh]]]]];
      rewrite E in Ha; try discriminate Ha.
    injection Ha as ->. rewrite Nat2Z.id. exists loc.
    split_and!; [done | by rewrite Hid |].
    apply Rabs_le. lra.
  - destruct Hblind as [[_ [=]]|[[_ [=]]|(_ & _ & [[=]|[=]])]]; lia.
Qed.

Lemma level_state_moves :
  _shortest_path_action Ex.self Ex.state_level "G" = Ok (1, 0, 0).
Proof.
  rewrite (oracle_not_at_goal _ _ _ "B") by done.
  change (scan_navigable _ _ _ _) with (Some (face_and_move 1 Ex.hop_level 12)).
  unfold face_and_move; simpl. pi_bounds.
  rewrite !decide_False by lra.
  rewrite !(bool_decide_eq_false_2 (_ > _)%R), !(bool_decide_eq_false_2 (_ < _)%R) by lra.
  reflexivity.
Qed.

Lemma oracle_move_turn_bound_witness :
  ∃ loc, SimState.navigableLocations Ex.state_level !! Z.to_nat 1 = Some loc ∧
         next_hop Ex.self Ex.state_level "G" = Ok (Viewpoint.viewpointId loc) ∧
         (Rabs (Viewpoint.rel_heading loc) <= PI / 6)%R.
Proof.
  apply (oracle_move_turn_bound Ex.self Ex.state_level "G" 1);
    [lia | exact level_state_moves].
Defined.

(** ** The oracle: a next hop that is navigable *)

(** C1, as stated, fails: at view index 12 (middle band) with the next hop
    straight ahead and one radian above, the code answers look-up, where
    the rule with looking up tied to the bottom band answers move. *)
Lemma visible_rule_counterexample :
  Viewpoint.viewpointId (SimState.location Ex.state_above) ≠ "G" ∧
  next_hop Ex.self Ex.state_above "G" = Ok "B" ∧
  SimState.navigableLocations Ex.state_above !! 1%nat = Some Ex.hop_above ∧
  Viewpoint.viewpointId Ex.hop_above = "B" ∧
  _shortest_path_action Ex.self Ex.state_above "G" = Ok (0, 0, 1) ∧
  specified_visible_rule 1 (Viewpoint.rel_heading Ex.hop_above)
    (Viewpoint.rel_elevation Ex.hop_above)
    (SimState.viewIndex Ex.state_above) = (1, 0, 0) ∧
  _shortest_path_action Ex.self Ex.state_above "G"
    ≠ Ok (specified_visible_rule 1 (Viewpoint.rel_heading Ex.hop_above)
            (Viewpoint.rel_elevation Ex.hop_above)
            (SimState.viewIndex Ex.state_above)).
Proof.
  assert (Hcode : _shortest_path_action Ex.self Ex.state_above "G" = Ok (0, 0, 1)).
  { rewrite (oracle_not_at_goal _ _ _ "B") by done.
    change (scan_navigable _ _ _ _) with (Some (face_and_move 1 Ex.hop_above 12)).
    unfold face_and_move; simpl. pi_bounds.
    rewrite !decide_False by lra.
    by rewrite (bool_decide_eq_true_2 (_ > _)%R) by lra. }
  assert (Hspec : specified_visible_rule 1 (Viewpoint.rel_heading Ex.hop_above)
                    (Viewpoint.rel_elevation Ex.hop_above)
                    (SimState.viewIndex Ex.state_above) = (1, 0, 0)).
  { unfold specified_visible_rule; simpl. pi_bounds.
    rewrite !decide_False by lra.
    rewrite (bool_decide_eq_true_2 (_ > _)%R), (bool_decide_eq_false_2 (_ < _)%R) by lra.
    reflexivity. }
  split_and!; try done. by rewrite Hcode, Hspec.
Qed.

(** C1, amended.  Not at the goal, with the next hop first found in the
    navigable list at index i with relative heading rh and relative
    elevation re, the oracle applies the first matching rule: turn right
    if rh > 30 degrees; else turn left if rh < -30 degrees; else look up
    if re > 30 degrees and the camera is below the top band
    ([viewIndex // 12 < 2]); else look down if re < -30 degrees and the
    camera is above the bottom band ([viewIndex // 12 > 0]); else move
    (i,0,0). *)
Theorem visible_next_hop_rule (self : t) (state : SimState.t) (goal : string)
    (i : nat) (loc : Viewpoint.t) :
  Viewpoint.viewpointId (SimState.location state) ≠ goal →
  next_hop self state goal = Ok (Viewpoint.viewpointId loc) →
  SimState.navigableLocations state !! i = Some loc →
  (∀ j l, (j < i)%nat → SimState.navigableLocations state !! j = Some l →
          Viewpoint.viewpointId l ≠ Viewpoint.viewpointId loc) →
  let rh := Viewpoint.rel_heading loc in
  let re := Viewpoint.rel_elevation loc in
  let band := SimState.viewIndex state `div` 12 in
  let answer := _shortest_path_action self state goal in
  ((rh > PI / 6)%R → answer = Ok (0, 1, 0)) ∧
  ((rh <= PI / 6)%R → (rh < - (PI / 6))%R → answer = Ok (0, -1, 0)) ∧
  ((- (PI / 6) <= rh <= PI / 6)%R → (re > PI / 6)%R → band < 2 →
     answer = Ok (0, 0, 1)) ∧
  ((- (PI / 6) <= rh <= PI / 6)%R → ¬ ((re > PI / 6)%R ∧ band < 2) →
     (re < - (PI / 6))%R → band > 0 → answer = Ok (0, 0, -1)) ∧
  ((- (PI / 6) <= rh <= PI / 6)%R → ¬ ((re > PI / 6)%R ∧ band < 2) →
     ¬ ((re < - (PI / 6))%R ∧ band > 0) → answer = Ok (Z.of_nat i, 0, 0)).
Proof.
  intros Hne Hnext Hi Hfirst. cbv zeta.
  rewrite (oracle_not_at_goal _ _ _ _ Hne Hnext).
  rewrite (scan_navigable_first _ _ _ 0 i loc) by done.
  unfold face_and_move. rewrite <- !bool_decide_and. simpl.
  split_and!.
  - intros. by rewrite decide_True.
  - intros. rewrite decide_False by lra. by rewrite decide_True by lra.
  - intros. rewrite !decide_False by lra.
    by rewrite bool_decide_eq_true_2 by (split; [lra | done]).
  - intros ? Hup **. rewrite !decide_False by lra.
    rewrite bool_decide_eq_false_2 by (intros []; apply Hup; split; [lra | done]).
    by rewrite bool_decide_eq_true_2 by (split; [lra | done]).
  - intros ? Hup Hdown. rewrite !decide_False by lra.
    rewrite bool_decide_eq_false_2 by (intros []; apply Hup; split; [lra | done]).
    by rewrite bool_decide_eq_false_2
      by (intros []; apply Hdown; split; [lra | done]).
Qed.

Lemma visible_next_hop_rule_witness :
  _shortest_path_action Ex.self Ex.state_above "G" = Ok (0, 0, 1).
Proof.
  destruct (visible_next_hop_rule Ex.self Ex.state_above "G" 1 Ex.hop_above)
    as (_ & _ & Hup & _).
  - done.
  - reflexivity.
  - reflexivity.
  - intros [|j] l Hj; [intros [= <-]; done | lia].
  - apply Hup; simpl; pi_bounds; [lra | lra | done].
Defined.

(** ** The oracle: a next hop that is not navigable *)

(** [math.atan2] stays within a turn and a half of zero. *)
Lemma atan2_bound (y x : R) : (- (3 * PI / 2) < atan2 y x < 3 * PI / 2)%R.
Proof.
  unfold atan2. pose proof (atan_bound (y / x)). pi_bounds.
  repeat case_decide; lra.
Qed.

Lemma sqrt_1_sqr_pos (z : R) : (0 < sqrt (1 + z²))%R.
Proof. apply sqrt_lt_R0. pose proof (Rle_0_sqr z). lra. Qed.

Lemma norm_scaled (x y : R) :
  x ≠ 0%R → sqrt (x * x + y * y) = (Rabs x * sqrt (1 + (y / x)²))%R.
Proof.
  intros Hx.
  replace (x * x + y * y)%R with (x² * (1 + (y / x)²))%R
    by (unfold Rsqr; field; done).
  pose proof (Rle_0_sqr x). pose proof (Rle_0_sqr (y / x)).
  rewrite sqrt_mult by lra. by rewrite sqrt_Rsqr_abs.
Qed.

(** [atan2 y x] is the polar angle of the point (x, y). *)
Lemma atan2_polar (y x : R) :
  let r := sqrt (x * x + y * y) in
  x = (r * cos (atan2 y x))%R ∧ y = (r * sin (atan2 y x))%R.
Proof.
  intros r. unfold atan2.
  destruct (decide (0 < x)%R) as [Hx|Hx]; [|destruct (decide (x < 0)%R) as [Hx'|Hx']].
  - unfold r. rewrite norm_scaled by lra. rewrite Rabs_pos_eq by lra.
    rewrite cos_atan, sin_atan. pose proof (sqrt_1_sqr_pos (y / x)).
    split; field; lra.
  - assert (E : ∀ a, (cos a = 1 / sqrt (1 + (y / x)²) →
        sin a = (y / x) / sqrt (1 + (y / x)²) →
        x = r * - cos a ∧ y = r * - sin a)%R).
    { intros a -> ->. unfold r. rewrite norm_scaled by lra.
      rewrite Rabs_left by lra. pose proof (sqrt_1_sqr_pos (y / x)).
      split; field; lra. }
    case_decide.
    + replace (cos (atan (y / x) - PI)) with (- cos (atan (y / x)))%R
        by (rewrite cos_minus, cos_PI, sin_PI; ring).
      replace (sin (atan (y / x) - PI)) with (- sin (atan (y / x)))%R
        by (rewrite sin_minus, cos_PI, sin_PI; ring).
      apply E; [apply cos_atan | apply sin_atan].
    + rewrite neg_cos, neg_sin. apply E; [apply cos_atan | apply sin_atan].
  - assert (x = 0)%R as -> by lra. unfold r.
    replace (0 * 0 + y * y)%R with (y²)%R by (unfold Rsqr; ring).
    rewrite sqrt_Rsqr_abs.
    repeat case_decide.
    + rewrite cos_PI2, sin_PI2, Rabs_pos_eq by lra. lra.
    + rewrite cos_neg, sin_neg, cos_PI2, sin_PI2, Rabs_left by lra. lra.
    + assert (y = 0)%R as -> by lra. rewrite Rabs_R0. lra.
Qed.

Lemma target_heading_range (d : Point) : (0 <= target_heading d < 2 * PI)%R.
Proof.
  unfold target_heading. pose proof (atan2_bound (py d) (px d)). pi_bounds.
  simpl. case_decide; lra.
Qed.

(** The target heading is the bearing of the displacement, clockwise from
    north (the y axis): the displacement is its length times
    (sin bearing, cos bearing). *)
Lemma target_heading_bearing (d : Point) :
  let r := sqrt (px d * px d + py d * py d) in
  px d = (r * sin (target_heading d))%R ∧ py d = (r * cos (target_heading d))%R.
Proof.
  intros r. destruct (atan2_polar (py d) (px d)) as [Hx Hy]. fold r in Hx, Hy.
  unfold target_heading. simpl. case_decide.
  - replace (PI / 2 - atan2 (py d) (px d) + 2 * PI)%R
      with (PI / 2 - atan2 (py d) (px d) + 2 * INR 1 * PI)%R by (simpl; ring).
    rewrite sin_period, cos_period, sin_shift, cos_shift. done.
  - rewrite sin_shift, cos_shift. done.
Qed.

Lemma turn_towards_cases (h t : R) :
  (turn_towards h t = TURN_LEFT ∧
     ((h > t ∧ h - t < PI) ∨ (t > h ∧ t - h > PI))%R) ∨
  (turn_towards h t = TURN_RIGHT ∧
     ¬ (h > t ∧ h - t < PI)%R ∧ ¬ (t > h ∧ t - h > PI)%R).
Proof.
  unfold turn_towards. rewrite <- !bool_decide_and.
  case_bool_decide; [left; split; [done | by left]|].
  case_bool_decide; [left; split; [done | by right] | by right].
Qed.

Lemma whole_turns_nonneg (k : Z) : 0 ≤ k → (0 <= 2 * PI * IZR k)%R.
Proof. intros Hk%IZR_le. pi_bounds. nra. Qed.

Lemma whole_turns_pos (k : Z) : 1 ≤ k → (2 * PI <= 2 * PI * IZR k)%R.
Proof. intros Hk%IZR_le. pi_bounds. nra. Qed.

Lemma whole_turns_nonpos (k : Z) : k ≤ 0 → (2 * PI * IZR k <= 0)%R.
Proof. intros Hk%IZR_le. pi_bounds. nra. Qed.

Lemma whole_turns_neg (k : Z) : k ≤ -1 → (2 * PI * IZR k <= - (2 * PI))%R.
Proof. intros Hk%IZR_le. pi_bounds. nra. Qed.

(** For headings in [0, 2 pi) the two tests of the code say exactly that
    the leftward path is the shorter one. *)
Lemma left_is_shorter_iff (h t : R) :
  (0 <= h < 2 * PI)%R → (0 <= t < 2 * PI)%R →
  left_is_shorter h t ↔ ((h > t ∧ h - t < PI) ∨ (t > h ∧ t - h > PI))%R.
Proof.
  intros Hh Ht. pi_bounds. split.
  - intros (delta & Hdelta & [k Hk] & Hmin).
    destruct (Rtotal_order h t) as [Hlt | [Heq | Hgt]].
    + right. split; [lra|].
      destruct (Rlt_le_dec PI (t - h)) as [|Hle]; [lra | exfalso].
      assert (Hr : (delta < t - h)%R).
      { apply Hmin; [lra|]. exists 0. simpl. lra. }
      destruct (Z_le_gt_dec k (-1)) as [Hk'|Hk'].
      * pose proof (whole_turns_neg k Hk'). lra.
      * pose proof (whole_turns_nonneg k ltac:(lia)). lra.
    + exfalso. assert (Hr : (delta < 0)%R); [|lra].
      apply Hmin; [lra|]. exists 0. simpl. lra.
    + left. split; [lra|].
      destruct (Rlt_le_dec (h - t) PI) as [|Hle]; [lra | exfalso].
      assert (Hr : (delta < t - h + 2 * PI)%R).
      { apply Hmin; [lra|]. exists 1. simpl. lra. }
      destruct (Z_le_gt_dec k 0) as [Hk'|Hk'].
      * pose proof (whole_turns_nonpos k Hk'). lra.
      * pose proof (whole_turns_pos k ltac:(lia)). lra.
  - intros [[Hgt Hd] | [Hgt Hd]].
    + exists (h - t)%R. split_and!; [lra | exists 0; simpl; lra |].
      intros delta' Hdelta' [k Hk].
      destruct (Z_le_gt_dec k 0) as [Hk'|Hk'].
      * pose proof (whole_turns_nonpos k Hk'). lra.
      * pose proof (whole_turns_pos k ltac:(lia)). lra.
    + exists (h - t + 2 * PI)%R. split_and!; [lra | exists (-1); simpl; lra |].
      intros delta' Hdelta' [k Hk].
      destruct (Z_le_gt_dec k (-1)) as [Hk'|Hk'].
      * pose proof (whole_turns_neg k Hk'). lra.
      * pose proof (whole_turns_nonneg k ltac:(lia)). lra.
Qed.

(** C2. Not at the goal, with the next hop absent from the navigable list
    and the camera in the middle band, the oracle takes the bearing from
    the current position to the position of the next hop, clockwise from
    north and within [0, 2 pi), and answers turn left (0,-1,0) exactly
    when the shorter angular path from the heading to that bearing is
    leftward, and turn right (0,1,0) in every other case.  The heading is
    one of the simulator, in [0, 2 pi). *)
Theorem blind_turn_rule (self : t) (state : SimState.t) (goal next : string)
    (G : gmap string Point) (position : Point) :
  Viewpoint.viewpointId (SimState.location state) ≠ goal →
  next_hop self state goal = Ok next →
  Forall (λ loc, Viewpoint.viewpointId loc ≠ next)
         (SimState.navigableLocations state) →
  SimState.viewIndex state `div` 12 = 1 →
  graphs self !! SimState.scanId state = Some G →
  G !! next = Some position →
  (0 <= SimState.heading state < 2 * PI)%R →
  let d := point_sub position (Viewpoint.point (SimState.location state)) in
  let r := sqrt (px d * px d + py d * py d) in
  let bearing := target_heading d in
  let answer := _shortest_path_action self state goal in
  (0 <= bearing < 2 * PI)%R ∧
  (px d = r * sin bearing ∧ py d = r * cos bearing)%R ∧
  (left_is_shorter (SimState.heading state) bearing → answer = Ok (0, -1, 0)) ∧
  (¬ left_is_shorter (SimState.heading state) bearing → answer = Ok (0, 1, 0)).
Proof.
  intros Hne Hnext Hhidden Hband HG Hpos Hh d r bearing answer.
  pose proof (target_heading_range d) as Ht.
  split_and!; [apply Ht.. | apply target_heading_bearing | apply target_heading_bearing | |].
  all: unfold answer; rewrite (oracle_not_at_goal _ _ _ _ Hne Hnext).
  all: apply (scan_navigable_None _ _ (SimState.viewIndex state) 0) in Hhidden.
  all: rewrite Hhidden, !decide_False by lia.
  all: apply getitem_Ok in HG, Hpos; rewrite HG; simpl; rewrite Hpos; simpl.
  all: fold d bearing; intros Hs.
  all: pose proof (left_is_shorter_iff _ _ Hh Ht) as Hiff; fold bearing in Hiff.
  all: destruct (turn_towards_cases (SimState.heading state) bearing)
         as [[-> Hc] | (-> & Hc1 & Hc2)]; try done; tauto.
Qed.

Lemma blind_state_bearing :
  target_heading (point_sub (mkPoint 0 2 0) (Viewpoint.point Ex.here)) = (PI / 2 - PI / 2)%R.
Proof.
  unfold target_heading, atan2; simpl. pi_bounds.
  rewrite (decide_False (P := (0 < 0 - 0)%R)) by lra.
  rewrite (decide_False (P := (0 - 0 < 0)%R)) by lra.
  rewrite (decide_True (P := (0 < 2 - 0)%R)) by lra.
  by rewrite decide_False by lra.
Qed.

Lemma blind_turn_rule_witness :
  _shortest_path_action Ex.self Ex.state_blind "G" = Ok (0, -1, 0).
Proof.
  destruct (blind_turn_rule Ex.self Ex.state_blind "G" "B"
              {[ "B" := mkPoint 0 2 0 ]} (mkPoint 0 2 0))
    as (_ & _ & Hleft & _).
  - done.
  - reflexivity.
  - repeat constructor. done.
  - reflexivity.
  - reflexivity.
  - reflexivity.
  - simpl. pi_bounds. lra.
  - apply Hleft.
    change (left_is_shorter 1
              (target_heading (point_sub (mkPoint 0 2 0) (Viewpoint.point Ex.here)))).
    rewrite blind_state_bearing. pi_bounds.
    apply left_is_shorter_iff; lra.
Defined.

(** ** The minibatch cursor *)

Lemma swap_Permutation {A : Type} (x : list A) (i j : nat) : random.swap x i j ≡ₚ x.
Proof.
  unfold random.swap.
  destruct (x !! i) eqn:Hi; [|done]. destruct (x !! j) eqn:Hj; [|done].
  by apply Permutation_insert_swap.
Qed.

Lemma shuffle_from_Permutation {A : Type} (i : nat) :
  ∀ (x : list A) (g : random.state), (random.shuffle_from i x g).1 ≡ₚ x.
Proof.
  induction i as [|i IH]; intros x g; simpl; [done|].
  rewrite IH. apply swap_Permutation.
Qed.

Lemma shuffle_Permutation {A : Type} (x : list A) (g : random.state) :
  (random.shuffle x g).1 ≡ₚ x.
Proof. apply shuffle_from_Permutation. Qed.

(** One call without sorting, in its two cases: the slice is full, or it
    comes up short. *)
Lemma next_minibatch_mid (self : t) (g : random.state) :
  (batch_size self ≤ length (data self) - ix self)%nat →
  _next_minibatch self false g =
    Ok (set_batch (set_ix self (ix self + batch_size self))
          (take (batch_size self) (drop (ix self) (data self))), g).
Proof.
  intros Hmid. unfold _next_minibatch.
  rewrite bool_decide_eq_false_2; [done|].
  rewrite length_take, length_drop. lia.
Qed.

Lemma next_minibatch_wrap (self : t) (g : random.state) :
  (length (data self) - ix self < batch_size self)%nat →
  _next_minibatch self false g =
    let leftover := drop (ix self) (data self) in
    let remainder := (batch_size self - length leftover)%nat in
    Ok (set_batch (set_ix (set_data self (random.shuffle (data self) g).1) remainder)
          (leftover ++ take remainder (random.shuffle (data self) g).1),
        (random.shuffle (data self) g).2).
Proof.
  intros Hwrap. unfold _next_minibatch.
  assert (Hlen : (length (take (batch_size self) (drop (ix self) (data self)))
                  < batch_size self)%nat)
    by (rewrite length_take, length_drop; lia).
  rewrite bool_decide_eq_true_2 by done.
  rewrite (take_ge (drop _ _)) by (rewrite length_drop; lia).
  destruct (random.shuffle (data self) g) as [data' g']. reflexivity.
Qed.

(** What one call delivers: the tasks drawn continue the current order
    where the cursor stood and, on a wrap, go on into the new order. *)
Lemma next_minibatch_step (self : t) (g : random.state) :
  ∃ self' g' drawn past,
    _next_minibatch self false g = Ok (self', g') ∧
    batch self' = Some drawn ∧
    batch_size self' = batch_size self ∧
    take (ix self) (data self) ++ drawn
      = concat past ++ take (ix self') (data self') ∧
    data self' ≡ₚ data self ∧
    ((past = [] ∧ data self' = data self) ∨ past = [data self]) ∧
    ((batch_size self ≤ length (data self))%nat →
       length drawn = batch_size self).
Proof.
  destruct (decide (length (data self) - ix self < batch_size self)%nat) as [Hw|Hm].
  - rewrite (next_minibatch_wrap _ _ Hw). cbv zeta.
    pose proof (shuffle_Permutation (data self) g) as Hperm.
    eexists _, _, _, [data self]. split_and!; try done.
    + simpl. by rewrite app_assoc, take_drop, app_nil_r.
    + by right.
    + intros HB. rewrite length_app, length_take, length_drop.
      rewrite (Permutation_length Hperm). lia.
  - rewrite (next_minibatch_mid self g) by lia.
    eexists _, _, _, []. split_and!; try done.
    + simpl. apply take_take_drop.
    + by left.
    + intros HB. rewrite length_take, length_drop. lia.
Qed.

(** C6, as stated, fails on the boundary [ix = N - batchSize]: with four
    tasks, batches of two and the cursor at 2, the code returns the last
    two tasks, moves the cursor to 4 and leaves the pool and the generator
    alone, where the two-state machine of the claim is in its epoch-wrap
    state and resets the cursor to 0. *)
Lemma cursor_machine_counterexample :
  Z.of_nat (ix Ex.at_last_batch)
    >= Z.of_nat (length (data Ex.at_last_batch)) - Z.of_nat (batch_size Ex.at_last_batch) ∧
  _next_minibatch Ex.at_last_batch false Ex.zeros =
    Ok (set_batch (set_ix Ex.at_last_batch 4) [Ex.task "7_2"; Ex.task "8_0"], Ex.zeros) ∧
  (specified_next_minibatch (data Ex.at_last_batch) (ix Ex.at_last_batch)
     (batch_size Ex.at_last_batch) Ex.zeros).1.2 = 0%nat ∧
  (λ r, ix r.1) <$> _next_minibatch Ex.at_last_batch false Ex.zeros
    ≠ Ok (specified_next_minibatch (data Ex.at_last_batch) (ix Ex.at_last_batch)
            (batch_size Ex.at_last_batch) Ex.zeros).1.2.
Proof.
  assert (Hspec : (specified_next_minibatch (data Ex.at_last_batch)
                     (ix Ex.at_last_batch) (batch_size Ex.at_last_batch)
                     Ex.zeros).1.2 = 0%nat).
  { unfold specified_next_minibatch.
    rewrite bool_decide_eq_false_2 by (simpl; lia).
    by destruct (random.shuffle _ _) as [data' g']. }
  split_and!; [done | reflexivity | done |].
  by rewrite Hspec.
Qed.

(** C6, amended.  A call of [_next_minibatch] (without sorting) in the
    mid-epoch state ([ix <= N - batchSize], that is [ix + batchSize <= N])
    returns the slice [data[ix:ix+batchSize]] and advances the cursor by
    the batch size, with the pool and the generator untouched; a call in
    the epoch-wrap state ([ix > N - batchSize]) takes the leftover tasks,
    reshuffles the whole pool, appends the remainder from the front of the
    reshuffled pool and sets the cursor to the remainder length, the batch
    size minus the leftover count. *)
Theorem minibatch_cursor_machine (self : t) (g : random.state) :
  let N := length (data self) in
  let B := batch_size self in
  ((ix self + B ≤ N)%nat →
     _next_minibatch self false g =
       Ok (set_batch (set_ix self (ix self + B)) (take B (drop (ix self) (data self))),
           g)) ∧
  ((0 < B)%nat → (N < ix self + B)%nat →
     let leftover := drop (ix self) (data self) in
     let reshuffled := (random.shuffle (data self) g).1 in
     let remainder := (B - length leftover)%nat in
     _next_minibatch self false g =
       Ok (set_batch (set_ix (set_data self reshuffled) remainder)
             (leftover ++ take remainder reshuffled),
           (random.shuffle (data self) g).2)).
Proof.
  split.
  - intros. apply next_minibatch_mid. lia.
  - intros. apply next_minibatch_wrap. lia.
Qed.

Lemma minibatch_cursor_machine_witness :
  _next_minibatch Ex.at_last_batch false Ex.zeros
    = Ok (set_batch (set_ix Ex.at_last_batch 4) [Ex.task "7_2"; Ex.task "8_0"],
          Ex.zeros) ∧
  (λ r, (ix r.1, batch r.1)) <$> _next_minibatch Ex.at_wrap false Ex.zeros
    = Ok (1%nat, Some [Ex.task "8_0"; Ex.task "7_1"]).
Proof.
  split.
  - destruct (minibatch_cursor_machine Ex.at_last_batch Ex.zeros) as [Hmid _].
    rewrite Hmid by (simpl; lia). reflexivity.
  - destruct (minibatch_cursor_machine Ex.at_wrap Ex.zeros) as [_ Hwrap].
    rewrite Hwrap by (simpl; lia). reflexivity.
Defined.

(** ** The stream of drawn tasks *)

Lemma length_concat_full {A : Type} (ls : list (list A)) (b : nat) :
  Forall (λ l, length l = b) ls → length (concat ls) = (length ls * b)%nat.
Proof.
  induction 1 as [|l ls Hl _ IH]; [done|].
  simpl. rewrite length_app. lia.
Qed.

Lemma draw_length (n : nat) :
  ∀ (self : t) (sort : bool) (g : random.state) batches self' g',
    draw n self sort g = Ok (batches, self', g') → length batches = n.
Proof.
  induction n as [|n IH]; intros self sort g batches self' g'; simpl.
  - by intros [= <- _ _].
  - intros H. apply bind_Ok_inv in H as ([self1 g1] & _ & H).
    apply bind_Ok_inv in H as ([[batches2 self2] g2] & Hd & H).
    injection H as <- _ _. simpl. f_equal. by eapply IH.
Qed.

(** The invariant of the stream: the tasks drawn, read after the part of
    the current order that the cursor had passed, are whole orders of the
    pool followed by the passed part of the last order. *)
Lemma draw_stream (n : nat) :
  ∀ (self : t) (g : random.state),
  ∃ batches self' g' past,
    draw n self false g = Ok (batches, self', g') ∧
    batch_size self' = batch_size self ∧
    take (ix self) (data self) ++ concat batches
      = concat past ++ take (ix self') (data self') ∧
    Forall (λ order, order ≡ₚ data self) (past ++ [data self']) ∧
    (∃ later, past ++ [data self'] = data self :: later) ∧
    ((batch_size self ≤ length (data self))%nat →
       Forall (λ drawn, length drawn = batch_size self) batches).
Proof.
  induction n as [|n IH]; intros self g.
  - exists [], self, g, []. simpl. split_and!; try done.
    + by rewrite app_nil_r.
    + by constructor.
    + by exists [].
  - destruct (next_minibatch_step self g)
      as (self1 & g1 & drawn & past1 & Hstep & Hdrawn & HB1 & Hcat1 & Hperm1 & Hpast1 & Hlen1).
    destruct (IH self1 g1)
      as (batches & self2 & g2 & past2 & Hdraw & HB2 & Hcat2 & Hperm2 & [later Hlater] & Hlen2).
    exists (drawn :: batches), self2, g2, (past1 ++ past2).
    split_and!.
    + simpl. rewrite Hstep. simpl. rewrite Hdraw. simpl. by rewrite Hdrawn.
    + congruence.
    + simpl. rewrite app_assoc, Hcat1, <- app_assoc, Hcat2.
      by rewrite concat_app, app_assoc.
    + rewrite <- app_assoc. apply Forall_app. split.
      * destruct Hpast1 as [[-> _] | ->]; by repeat constructor.
      * eapply Forall_impl; [exact Hperm2|]. intros order Ho. simpl in Ho.
        by rewrite Ho.
    + rewrite <- app_assoc, Hlater.
      destruct Hpast1 as [[-> <-] | ->]; simpl; eauto.
    + intros HB. constructor; [by apply Hlen1|].
      rewrite <- HB1. apply Hlen2.
      rewrite HB1, (Permutation_length Hperm1). done.
Qed.

(** C7. Whatever the pool, the batch size and the generator are, any
    number of successive [_next_minibatch] calls (as [reset()] makes them,
    without sorting) succeeds, and the tasks drawn, read after the part of
    the current order that the cursor had passed, are whole orders of the
    pool one after the other followed by the passed part of the last
    order: every task is drawn once in each order before the next order
    begins.  The first order is the one the pool had and each order is a
    permutation of the pool, so the order changes only when an order is
    exhausted and the pool is reshuffled.  With no more tasks in a batch
    than in the pool every batch is full, and from cursor 0 the tasks drawn
    begin with the whole pool in its order as soon as the calls have drawn
    as many tasks as the pool holds. *)
Theorem minibatch_epochs (n : nat) (self : t) (g : random.state) :
  ∃ batches self' g' past,
    draw n self false g = Ok (batches, self', g') ∧
    take (ix self) (data self) ++ concat batches
      = concat past ++ take (ix self') (data self') ∧
    Forall (λ order, order ≡ₚ data self) (past ++ [data self']) ∧
    (∃ later, past ++ [data self'] = data self :: later) ∧
    ((batch_size self ≤ length (data self))%nat →
       Forall (λ drawn, length drawn = batch_size self) batches ∧
       (ix self = 0%nat → (length (data self) ≤ n * batch_size self)%nat →
          ∃ tail, concat batches = data self ++ tail)).
Proof.
  destruct (draw_stream n self g)
    as (batches & self' & g' & past & Hdraw & _ & Hcat & Hperm & [later Hlater] & Hlen).
  exists batches, self', g', past. split_and!; eauto.
  intros HB. specialize (Hlen HB). split; [done|].
  intros Hix HN. rewrite Hix in Hcat. simpl in Hcat. rewrite Hcat.
  destruct past as [|order past].
  - simpl in *. injection Hlater as Hdata _. rewrite Hdata.
    exists []. rewrite app_nil_r. apply take_ge.
    apply (f_equal length) in Hcat.
    rewrite (length_concat_full _ _ Hlen), length_take, Hdata in Hcat.
    rewrite (draw_length _ _ _ _ _ _ _ Hdraw) in Hcat. lia.
  - simpl in *. injection Hlater as -> _.
    eexists. by rewrite <- app_assoc.
Qed.

(** ** Building an [EnvBatch] *)

Lemma new_beam_spec (f : ImageFeatures.t) (b : nat) :
  ∀ c, (EnvBatch.new_beam f b c).2 = (c + b)%nat ∧
       length (EnvBatch.new_beam f b c).1 = b ∧
       Sim.id <$> (EnvBatch.new_beam f b c).1 = seq c b.
Proof.
  induction b as [|b IH]; intros c; simpl; [split_and!; [lia | done | done]|].
  destruct (IH (S c)) as (H1 & H2 & H3).
  destruct (EnvBatch.new_beam f b (S c)) as [beam c']; simpl in *.
  split_and!; [lia | by f_equal | by f_equal].
Qed.

Lemma new_sims_spec (f : ImageFeatures.t) (n b : nat) :
  ∀ c, (EnvBatch.new_sims f n b c).2 = (c + n * b)%nat ∧
       length (EnvBatch.new_sims f n b c).1 = n ∧
       Forall (λ beam, length beam = b) (EnvBatch.new_sims f n b c).1 ∧
       Sim.id <$> concat (EnvBatch.new_sims f n b c).1 = seq c (n * b).
Proof.
  induction n as [|n IH]; intros c; simpl; [split_and!; [lia | done | done | done]|].
  destruct (new_beam_spec f b c) as (B1 & B2 & B3).
  destruct (EnvBatch.new_beam f b c) as [beam c1]; simpl in *.
  destruct (IH c1) as (H1 & H2 & H3 & H4).
  destruct (EnvBatch.new_sims f n b c1) as [rest c2]; simpl in *.
  split_and!; [lia | by f_equal | by constructor |].
  rewrite fmap_app, B3, H4, B1. by rewrite seq_app.
Qed.

Lemma init_well_shaped (f : ImageFeatures.t) (n b c : nat) :
  (0 < b)%nat → well_shaped (EnvBatch.__init__ f n b c).1.
Proof.
  intros Hb. unfold EnvBatch.__init__, well_shaped.
  destruct (new_sims_spec f n b c) as (_ & H2 & H3 & _).
  destruct (EnvBatch.new_sims f n b c) as [sims c']; simpl in *. done.
Qed.

(** ** [set_beam_size] *)

Lemma set_beam_size_same (self : t) (b : nat) (constructed : nat) :
  beam_size self = Some b → set_beam_size self b constructed = (self, constructed).
Proof.
  intros Hcur. unfold set_beam_size. rewrite Hcur.
  by rewrite bool_decide_eq_false_2 by tauto.
Qed.

Lemma set_beam_size_fresh (self : t) (b : nat) (constructed : nat) :
  beam_size self ≠ Some b →
  set_beam_size self b constructed =
    (set_env self b
       (EnvBatch.__init__ (image_features self) (batch_size self) b constructed).1,
     (EnvBatch.__init__ (image_features self) (batch_size self) b constructed).2).
Proof.
  intros Hcur. unfold set_beam_size.
  destruct (EnvBatch.__init__ _ _ _ _) as [fresh c'].
  destruct (beam_size self) as [current|]; [|done].
  rewrite bool_decide_eq_true_2; [done | congruence].
Qed.

(** C10. [set_beam_size] is idempotent.  When the requested beam size is
    the current one the call changes nothing and constructs no simulator;
    when it differs, or none is set yet, the call stores the size and a
    fresh [EnvBatch] of [batch_size] beams of [beam_size] new simulator
    objects each, [batch_size * beam_size] objects in all; a second call
    with the same size changes nothing more. *)
Theorem set_beam_size_idempotent (self : t) (b : nat) (constructed : nat) :
  let self' := (set_beam_size self b constructed).1 in
  let constructed' := (set_beam_size self b constructed).2 in
  (beam_size self = Some b → self' = self ∧ constructed' = constructed) ∧
  (beam_size self ≠ Some b →
     beam_size self' = Some b ∧
     constructed' = (constructed + batch_size self * b)%nat ∧
     ∃ fresh, env self' = Some fresh ∧
       fresh = (EnvBatch.__init__ (image_features self) (batch_size self) b constructed).1 ∧
       length (EnvBatch.sims fresh) = batch_size self ∧
       Forall (λ beam, length beam = b) (EnvBatch.sims fresh) ∧
       Sim.id <$> concat (EnvBatch.sims fresh)
         = seq constructed (batch_size self * b)) ∧
  set_beam_size self' b constructed' = (self', constructed').
Proof.
  cbv zeta. split_and!.
  - intros Hcur. by rewrite set_beam_size_same.
  - intros Hcur. rewrite set_beam_size_fresh by done. simpl.
    unfold EnvBatch.__init__.
    destruct (new_sims_spec (image_features self) (batch_size self) b constructed)
      as (H1 & H2 & H3 & H4).
    destruct (EnvBatch.new_sims _ _ _ _) as [sims c']; simpl in *.
    split_and!; [done | done |]. eexists. split_and!; done.
  - destruct (decide (beam_size self = Some b)) as [Hcur|Hcur].
    + rewrite (set_beam_size_same self) by done. simpl.
      by apply set_beam_size_same.
    + rewrite (set_beam_size_fresh self) by done. simpl.
      by apply set_beam_size_same.
Qed.

(** ** [makeSimpleActions] *)

Lemma simple_action_map_dom (index : Z) :
  is_Some (simple_action_map !! index) ↔ 0 ≤ index ≤ 4.
Proof.
  unfold simple_action_map. rewrite !lookup_insert_is_Some, lookup_singleton_is_Some.
  lia.
Qed.

Lemma simple_f_valid (sim : Sim.t) (index : Z) :
  0 ≤ index ≤ 4 → EnvBatch.makeSimpleActions_f sim index = Ok (apply_simple sim index).
Proof.
  intros H. assert (index = 0 ∨ index = 1 ∨ index = 2 ∨ index = 3 ∨ index = 4)
    as Hcases by lia.
  destruct Hcases as [->|[->|[->|[->| ->]]]]; reflexivity.
Qed.

Lemma simple_f_invalid (sim : Sim.t) (index : Z) :
  ¬ 0 ≤ index ≤ 4 →
  EnvBatch.makeSimpleActions_f sim index
    = Raise (SystemExit ("Invalid simple action " +:+ pretty index)).
Proof.
  intros H. unfold EnvBatch.makeSimpleActions_f.
  by rewrite !decide_False by lia.
Qed.

Lemma map_beam_valid (beam : list Sim.t) :
  ∀ indices : list Z,
    length indices = length beam →
    Forall (λ index, 0 ≤ index ≤ 4) indices →
    map_beam EnvBatch.makeSimpleActions_f beam indices
      = Ok (zip_with apply_simple beam indices).
Proof.
  induction beam as [|sim beam IH]; intros [|index indices] Hlen Hvalid; try done.
  apply Forall_cons in Hvalid as [Hv Hvalid]. simpl.
  rewrite simple_f_valid by done. simpl.
  rewrite IH by (simpl in Hlen; auto). done.
Qed.

Lemma map_beam_invalid (beam : list Sim.t) :
  ∀ indices : list Z,
    length indices = length beam →
    ¬ Forall (λ index, 0 ≤ index ≤ 4) indices →
    exits (map_beam EnvBatch.makeSimpleActions_f beam indices).
Proof.
  induction beam as [|sim beam IH]; intros [|index indices] Hlen Hbad; try done.
  { destruct Hbad. constructor. }
  simpl. destruct (decide (0 ≤ index ≤ 4)) as [Hindex|Hindex].
  - rewrite simple_f_valid by done. simpl.
    destruct (IH indices) as [msg ->]; [simpl in Hlen; lia | | by exists msg].
    intros Hrest. apply Hbad. by constructor.
  - rewrite simple_f_invalid by done. by eexists.
Qed.

Lemma map_nested_valid (sims : list (list Sim.t)) :
  ∀ indices : list (list Z),
    Forall2 (λ beam row, length row = length beam) sims indices →
    Forall (Forall (λ index, 0 ≤ index ≤ 4)) indices →
    map_nested EnvBatch.makeSimpleActions_f sims indices
      = Ok (zip_with (zip_with apply_simple) sims indices).
Proof.
  induction sims as [|beam sims IH]; intros [|row indices] Hshape Hvalid;
    try done; try (by inversion Hshape).
  apply Forall2_cons in Hshape as [Hrow Hshape].
  apply Forall_cons in Hvalid as [Hv Hvalid]. simpl.
  rewrite map_beam_valid by done. simpl. by rewrite IH.
Qed.

Lemma map_nested_invalid (sims : list (list Sim.t)) :
  ∀ indices : list (list Z),
    Forall2 (λ beam row, length row = length beam) sims indices →
    ¬ Forall (Forall (λ index, 0 ≤ index ≤ 4)) indices →
    exits (map_nested EnvBatch.makeSimpleActions_f sims indices).
Proof.
  induction sims as [|beam sims IH]; intros [|row indices] Hshape Hbad;
    try (by inversion Hshape).
  { destruct Hbad. constructor. }
  apply Forall2_cons in Hshape as [Hlen Hshape]. simpl.
  destruct (decide (Forall (λ index, 0 ≤ index ≤ 4) row)) as [Hrow|Hrow].
  - rewrite map_beam_valid by done. simpl.
    destruct (IH indices) as [msg ->]; [done | | by exists msg].
    intros Hrest. apply Hbad. by constructor.
  - destruct (map_beam_invalid beam row) as [msg ->]; [done | done | by exists msg].
Qed.

Lemma map_first_slot_valid (sims : list (list Sim.t)) :
  ∀ indices : list Z,
    length indices = length sims →
    Forall (λ beam, beam ≠ []) sims →
    Forall (λ index, 0 ≤ index ≤ 4) indices →
    map_first_slot EnvBatch.makeSimpleActions_f sims indices
      = Ok (zip_with act_slot0 sims indices).
Proof.
  induction sims as [|beam sims IH]; intros [|index indices] Hlen Hbeams Hvalid;
    try done.
  apply Forall_cons in Hbeams as [Hbeam Hbeams].
  apply Forall_cons in Hvalid as [Hv Hvalid].
  destruct beam as [|sim others]; [done|]. simpl.
  rewrite simple_f_valid by done. simpl.
  rewrite IH by (simpl in Hlen; auto). done.
Qed.

Lemma map_first_slot_invalid (sims : list (list Sim.t)) :
  ∀ indices : list Z,
    length indices = length sims →
    Forall (λ beam, beam ≠ []) sims →
    ¬ Forall (λ index, 0 ≤ index ≤ 4) indices →
    exits (map_first_slot EnvBatch.makeSimpleActions_f sims indices).
Proof.
  induction sims as [|beam sims IH]; intros [|index indices] Hlen Hbeams Hbad;
    try done.
  { destruct Hbad. constructor. }
  apply Forall_cons in Hbeams as [Hbeam Hbeams].
  destruct beam as [|sim others]; [done|]. simpl.
  destruct (decide (0 ≤ index ≤ 4)) as [Hindex|Hindex].
  - rewrite simple_f_valid by done. simpl.
    destruct (IH indices) as [msg ->]; [simpl in Hlen; lia | done | | by exists msg].
    intros Hrest. apply Hbad. by constructor.
  - rewrite simple_f_invalid by done. by eexists.
Qed.

Lemma well_shaped_beams (env : EnvBatch.t) :
  well_shaped env → Forall (λ beam, beam ≠ []) (EnvBatch.sims env).
Proof.
  intros (_ & Hbeams & Hpos). eapply Forall_impl; [exact Hbeams|].
  intros [|sim beam] Hlen; simpl in *; [lia | done].
Qed.

(** C9. The local function of [makeSimpleActions] applies to its simulator
    exactly the primitive tuple that the 5-way map gives for the index
    (0 forward (1,0,0), 1 turn left (0,-1,0), 2 turn right (0,1,0), 3 look
    up (0,0,1), 4 look down (0,0,-1)), and for an index outside 0..4 it
    ends the process.  Over a batch with one index per agent the first
    beam slot of every agent gets the action of its index; over a beamed
    batch with one index per beam slot every simulator gets the action of
    its index; and as soon as one index is outside 0..4 the call ends the
    process instead of returning. *)
Theorem makeSimpleActions_spec (self : EnvBatch.t) :
  well_shaped self →
  let done_with sims' :=
    Ok (EnvBatch.mk sims' (EnvBatch.batch_size self) (EnvBatch.beam_size self)
          (EnvBatch.image_features self)) in
  let valid index := 0 ≤ index ≤ 4 in
  (∀ index, is_Some (simple_action_map !! index) ↔ valid index) ∧
  (∀ sim index,
     (valid index →
        EnvBatch.makeSimpleActions_f sim index = Ok (apply_simple sim index)) ∧
     (¬ valid index → exits (EnvBatch.makeSimpleActions_f sim index))) ∧
  (∀ simple_indices : list Z,
     length simple_indices = EnvBatch.batch_size self →
     (Forall valid simple_indices →
        EnvBatch.makeSimpleActions self false simple_indices
          = done_with (zip_with act_slot0 (EnvBatch.sims self) simple_indices)) ∧
     (¬ Forall valid simple_indices →
        exits (EnvBatch.makeSimpleActions self false simple_indices))) ∧
  (∀ simple_indices : list (list Z),
     length simple_indices = EnvBatch.batch_size self →
     Forall (λ row, length row = EnvBatch.beam_size self) simple_indices →
     (Forall (Forall valid) simple_indices →
        EnvBatch.makeSimpleActions self true simple_indices
          = done_with (zip_with (zip_with apply_simple) (EnvBatch.sims self)
                         simple_indices)) ∧
     (¬ Forall (Forall valid) simple_indices →
        exits (EnvBatch.makeSimpleActions self true simple_indices))).
Proof.
  intros Hshape. pose proof (well_shaped_beams self Hshape) as Hbeams.
  destruct Hshape as (Hn & Hb & Hpos). cbv zeta.
  split_and!.
  - apply simple_action_map_dom.
  - intros sim index. split; intros Hindex.
    + by apply simple_f_valid.
    + rewrite simple_f_invalid by done. by eexists.
  - intros indices Hlen. unfold EnvBatch.makeSimpleActions. simpl. split; intros Hv.
    + rewrite map_first_slot_valid by (done || congruence). done.
    + destruct (map_first_slot_invalid (EnvBatch.sims self) indices)
        as [msg ->]; [congruence | done | done | by exists msg].
  - intros indices Hlen Hrows.
    assert (Hshape : Forall2 (λ beam row, length row = length beam)
                       (EnvBatch.sims self) indices).
    { apply Forall2_same_length_lookup_2; [congruence|].
      intros i beam row Hbeam Hrow.
      rewrite Forall_lookup in Hb. rewrite Forall_lookup in Hrows.
      rewrite (Hb _ _ Hbeam). by apply (Hrows i). }
    unfold EnvBatch.makeSimpleActions. simpl. split; intros Hv.
    + rewrite map_nested_valid by done. done.
    + destruct (map_nested_invalid (EnvBatch.sims self) indices)
        as [msg ->]; [done | done | by exists msg].
Qed.

Lemma env22_well_shaped : well_shaped Ex.env22.
Proof. apply init_well_shaped. lia. Qed.

Lemma makeSimpleActions_spec_witness :
  EnvBatch.makeSimpleActions Ex.env22 false [0; 3]
    = Ok (EnvBatch.mk (zip_with act_slot0 (EnvBatch.sims Ex.env22) [0; 3]) 2 2
            Ex.features) ∧
  exits (EnvBatch.makeSimpleActions Ex.env22 true [[1; 2]; [4; 5]]).
Proof.
  destruct (makeSimpleActions_spec Ex.env22 env22_well_shaped)
    as (_ & _ & Hflat & Hbeamed).
  split.
  - apply (Hflat [0; 3]); [reflexivity|]. repeat constructor; lia.
  - apply (Hbeamed [[1; 2]; [4; 5]]); [reflexivity | by repeat constructor |].
    intros Hv. apply Forall_cons in Hv as [_ Hv]. apply Forall_cons in Hv as [Hv _].
    apply Forall_cons in Hv as [_ Hv]. apply Forall_cons in Hv as [Hv _]. lia.
Defined.

(** ** [newEpisodes] *)

Lemma append_states_len (beamed : bool) (poses : list WorldState.t) :
  ∀ acc, batch_len beamed (fold_left (EnvBatch.append_state beamed) poses acc)
         = (batch_len beamed acc + length poses)%nat.
Proof.
  induction poses as [|w poses IH]; intros acc; simpl; [lia|].
  rewrite IH. destruct beamed; simpl; rewrite length_app; simpl; lia.
Qed.

Lemma append_states_flat (poses : list WorldState.t) :
  ∀ acc : list WorldState.t,
    fold_left (EnvBatch.append_state false) poses acc = acc ++ poses.
Proof.
  induction poses as [|w poses IH]; intros acc; simpl; [by rewrite app_nil_r|].
  rewrite IH. by rewrite <- app_assoc.
Qed.

Lemma append_states_beamed (poses : list WorldState.t) :
  ∀ acc : list (list WorldState.t),
    fold_left (EnvBatch.append_state true) poses acc = acc ++ ((λ w, [w]) <$> poses).
Proof.
  induction poses as [|w poses IH]; intros acc; simpl; [by rewrite app_nil_r|].
  rewrite IH. by rewrite <- app_assoc.
Qed.

(** The loop, with the agents before [i] already done. *)
Lemma newEpisodes_loop_spec (beamed : bool) (items : list (string * string * R)) :
  ∀ (before after : list (list Sim.t)) (acc : batch_of beamed WorldState.t),
    length after = length items →
    Forall (λ beam, beam ≠ []) after →
    EnvBatch.newEpisodes_loop beamed (length before) items (before ++ after) acc
      = Ok (fold_left (EnvBatch.append_state beamed) (initial_pose <$> items) acc,
            before ++ zip_with start_slot0 after (initial_pose <$> items)).
Proof.
  induction items as [|[[scanId viewpointId] heading] items IH];
    intros before [|beam after] acc Hlen Hbeams; try done.
  apply Forall_cons in Hbeams as [Hbeam Hbeams].
  destruct beam as [|sim others]; [done|].
  cbn [EnvBatch.newEpisodes_loop].
  unfold index. rewrite list_lookup_middle by done. simpl.
  rewrite insert_app_r_alt, Nat.sub_diag by done. simpl.
  specialize (IH (before ++ [load_world_state sim
                    (WorldState.mk scanId viewpointId heading 0) :: others]) after).
  rewrite length_app, Nat.add_1_r, <- app_assoc in IH. simpl in IH.
  rewrite IH by (simpl in Hlen; auto). by rewrite <- app_assoc.
Qed.

Lemma lookup_initial_poses (scanIds viewpointIds : list string) (headings : list R)
    (i : nat) (s v : string) (h : R) :
  scanIds !! i = Some s → viewpointIds !! i = Some v → headings !! i = Some h →
  (initial_pose <$> zip (zip scanIds viewpointIds) headings) !! i
    = Some (WorldState.mk s v h 0).
Proof.
  intros Hs Hv Hh. rewrite list_lookup_fmap.
  assert (zip (zip scanIds viewpointIds) headings !! i = Some (s, v, h)) as ->; [|done].
  apply lookup_zip_with_Some. exists (s, v), h. split_and!; [done | | done].
  apply lookup_zip_with_Some. by exists s, v.
Qed.

Lemma newEpisodes_ok (self : EnvBatch.t) (scanIds viewpointIds : list string)
    (headings : list R) (beamed : bool) :
  Forall (λ beam, beam ≠ []) (EnvBatch.sims self) →
  length scanIds = length (EnvBatch.sims self) →
  length viewpointIds = length (EnvBatch.sims self) →
  length headings = length (EnvBatch.sims self) →
  EnvBatch.newEpisodes self scanIds viewpointIds headings beamed
    = Ok (fold_left (EnvBatch.append_state beamed)
            (initial_pose <$> zip (zip scanIds viewpointIds) headings)
            (EnvBatch.no_states beamed),
          EnvBatch.mk
            (zip_with start_slot0 (EnvBatch.sims self)
               (initial_pose <$> zip (zip scanIds viewpointIds) headings))
            (EnvBatch.batch_size self) (EnvBatch.beam_size self)
            (EnvBatch.image_features self)).
Proof.
  intros Hbeams Hs Hv Hh.
  assert (Hitems : length (EnvBatch.sims self)
                   = length (zip (zip scanIds viewpointIds) headings))
    by (rewrite !length_zip_with; lia).
  unfold EnvBatch.newEpisodes.
  rewrite !bool_decide_eq_true_2 by congruence.
  unfold assert at 1 2 3. cbn [mbind result_bind].
  pose proof (newEpisodes_loop_spec beamed _ [] (EnvBatch.sims self)
                (EnvBatch.no_states beamed) Hitems Hbeams) as Hloop.
  cbn [length app] in Hloop. rewrite Hloop. cbn [mbind result_bind].
  rewrite bool_decide_eq_true_2; [done|].
  rewrite append_states_len, length_fmap, <- Hitems, Hs.
  by destruct beamed.
Qed.

(** C8. With the three input sequences as long as the batch, [newEpisodes]
    returns one initial pose per agent, carrying the agent's scan,
    viewpoint and heading with elevation 0 (each wrapped in a one-element
    list when beamed), and it starts an episode on beam slot 0 of every
    agent and on no other simulator: the simulator in slot 0 of agent i
    has received, after the calls it had, the call
    [newEpisode(scanIds[i], viewpointIds[i], headings[i], 0)], and the
    other slots of the beam are as they were.  When the lengths differ or
    are not the batch size the call fails on an assertion. *)
Theorem newEpisodes_spec (self : EnvBatch.t) (scanIds viewpointIds : list string)
    (headings : list R) :
  well_shaped self →
  let n := EnvBatch.batch_size self in
  let poses := initial_pose <$> zip (zip scanIds viewpointIds) headings in
  let started :=
    EnvBatch.mk (zip_with start_slot0 (EnvBatch.sims self) poses)
      (EnvBatch.batch_size self) (EnvBatch.beam_size self)
      (EnvBatch.image_features self) in
  (length scanIds = n → length viewpointIds = n → length headings = n →
     length poses = n ∧
     (∀ i s v h,
        scanIds !! i = Some s → viewpointIds !! i = Some v → headings !! i = Some h →
        poses !! i = Some (WorldState.mk s v h 0)) ∧
     EnvBatch.newEpisodes self scanIds viewpointIds headings false
       = Ok (poses, started) ∧
     EnvBatch.newEpisodes self scanIds viewpointIds headings true
       = Ok ((λ w, [w]) <$> poses, started) ∧
     length (EnvBatch.sims started) = n ∧
     (∀ i s v h beam,
        scanIds !! i = Some s → viewpointIds !! i = Some v → headings !! i = Some h →
        EnvBatch.sims self !! i = Some beam →
        ∃ sim others,
          beam = sim :: others ∧
          EnvBatch.sims started !! i
            = Some (Sim.mk (Sim.id sim) (Sim.calls sim ++ [newEpisode s v h 0])
                      :: others))) ∧
  (¬ (length scanIds = n ∧ length viewpointIds = n ∧ length headings = n) →
     ∀ beamed,
       EnvBatch.newEpisodes self scanIds viewpointIds headings beamed
         = Raise AssertionError).
Proof.
  intros Hshape. pose proof (well_shaped_beams self Hshape) as Hbeams.
  destruct Hshape as (Hn & _ & _). cbv zeta. split.
  - intros Hs Hv Hh. split_and!.
    + rewrite length_fmap, !length_zip_with. lia.
    + apply lookup_initial_poses.
    + rewrite (newEpisodes_ok self _ _ _ false) by (done || congruence).
      by rewrite append_states_flat.
    + rewrite (newEpisodes_ok self _ _ _ true) by (done || congruence).
      by rewrite append_states_beamed.
    + simpl. rewrite length_zip_with, length_fmap, !length_zip_with. lia.
    + intros i s v h beam His Hiv Hih Hbeam. simpl.
      rewrite Forall_lookup in Hbeams. specialize (Hbeams i beam Hbeam).
      destruct beam as [|sim others]; [done|]. exists sim, others.
      split; [done|].
      pose proof (lookup_initial_poses _ _ _ i s v h His Hiv Hih) as Hpose.
      apply lookup_zip_with_Some.
      exists (sim :: others), (WorldState.mk s v h 0). by split_and!.
  - intros Hbad beamed. unfold EnvBatch.newEpisodes.
    destruct (decide (length scanIds = length viewpointIds)) as [H1|H1];
      [|rewrite (bool_decide_eq_false_2 _ H1); reflexivity].
    rewrite (bool_decide_eq_true_2 _ H1).
    destruct (decide (length headings = length viewpointIds)) as [H2|H2];
      [|rewrite (bool_decide_eq_false_2 _ H2); reflexivity].
    rewrite (bool_decide_eq_true_2 _ H2).
    destruct (decide (length scanIds = length (EnvBatch.sims self))) as [H3|H3];
      [|rewrite (bool_decide_eq_false_2 _ H3); reflexivity].
    exfalso. apply Hbad. lia.
Qed.

Lemma newEpisodes_spec_witness :
  (∃ started,
     EnvBatch.newEpisodes Ex.env22 ["scan"; "scan"] ["A"; "B"] [0%R; 1%R] true
       = Ok ([[WorldState.mk "scan" "A" 0 0]; [WorldState.mk "scan" "B" 1 0]],
             started) ∧
     (λ beam : list Sim.t, Sim.calls <$> beam) <$> EnvBatch.sims started
       = [ [configured Ex.features ++ [newEpisode "scan" "A" 0 0];
            configured Ex.features];
           [configured Ex.features ++ [newEpisode "scan" "B" 1 0];
            configured Ex.features] ] ∧
     identities (EnvBatch.sims started) = [[0; 1]; [2; 3]]%nat) ∧
  EnvBatch.newEpisodes Ex.env22 ["scan"; "scan"] ["A"] [0%R; 1%R] true
    = Raise AssertionError.
Proof.
  split.
  - destruct (newEpisodes_spec Ex.env22 ["scan"; "scan"] ["A"; "B"] [0%R; 1%R]
                env22_well_shaped) as [Hok _].
    destruct Hok as (_ & _ & _ & Hcall & _ & Hslots); [reflexivity..|].
    eexists. split; [exact Hcall|].
    destruct (Hslots 0%nat "scan" "A" 0%R _ eq_refl eq_refl eq_refl eq_refl)
      as (sim0 & others0 & [= <- <-] & H0).
    destruct (Hslots 1%nat "scan" "B" 1%R _ eq_refl eq_refl eq_refl eq_refl)
      as (sim1 & others1 & [= <- <-] & H1).
    split; reflexivity.
  - destruct (newEpisodes_spec Ex.env22 ["scan"; "scan"] ["A"] [0%R; 1%R]
                env22_well_shaped) as [_ Hbad].
    apply Hbad. simpl. intros (_ & [=] & _).
Defined.

(** * Further properties *)

(** ** Sorting a batch by instruction length *)

Lemma insert_desc_Permutation (k : Z) (item : Item.t) (l : list (Z * Item.t)) :
  insert_desc k item l ≡ₚ (k, item) :: l.
Proof.
  induction l as [|[k' item'] l IH]; simpl; [done|].
  case_bool_decide; [|done]. rewrite IH. apply Permutation_swap.
Qed.

Lemma insert_desc_sorted (k : Z) (item : Item.t) (l : list (Z * Item.t)) :
  StronglySorted (λ p q, q.1 ≤ p.1) l →
  StronglySorted (λ p q, q.1 ≤ p.1) (insert_desc k item l).
Proof.
  induction 1 as [|[k' item'] l Hl IH Hall]; simpl; [by repeat constructor|].
  case_bool_decide as Hk.
  - constructor; [done|]. rewrite insert_desc_Permutation.
    constructor; [simpl; lia | done].
  - constructor; [by constructor|]. constructor; [simpl; lia|].
    eapply Forall_impl; [exact Hall|]. simpl. intros; lia.
Qed.

Lemma insert_desc_filter (k k0 : Z) (item : Item.t) (l : list (Z * Item.t)) :
  filter (λ p, p.1 = k0) (insert_desc k item l)
    = filter (λ p, p.1 = k0) ((k, item) :: l).
Proof.
  induction l as [|[k' item'] l IH]; simpl; [done|].
  case_bool_decide as Hk; [|done].
  rewrite !filter_cons in *. simpl in *. rewrite IH.
  repeat case_decide; try done; lia.
Qed.

Lemma sorted_desc_Ok (batch : list Item.t) :
  Forall (λ item, is_Some (Item.instr_length item)) batch →
  ∃ l, sorted_desc batch = Ok l ∧ l.*2 ≡ₚ batch ∧ keyed l ∧
       StronglySorted (λ p q, q.1 ≤ p.1) l ∧
       ∀ k, (filter (λ p, p.1 = k) l).*2
            = filter (λ item, Item.instr_length item = Some k) batch.
Proof.
  induction 1 as [|item batch [k Hk] _ (l & Hl & Hperm & Hkeys & Hsorted & Hstable)].
  { exists []. split_and!; by try constructor. }
  exists (insert_desc k item l). simpl. rewrite Hk, Hl. simpl.
  split_and!; [done | | | by apply insert_desc_sorted |].
  - by rewrite insert_desc_Permutation, fmap_cons, Hperm.
  - unfold keyed. rewrite insert_desc_Permutation. by constructor.
  - intros k0. rewrite insert_desc_filter, !filter_cons. simpl.
    rewrite Hk, <- Hstable.
    destruct (decide (k = k0)) as [->|Hne];
      [by rewrite decide_True | by rewrite decide_False by congruence].
Qed.

Lemma sorted_desc_KeyError (batch : list Item.t) :
  Exists (λ item, Item.instr_length item = None) batch →
  sorted_desc batch = Raise KeyError.
Proof.
  induction 1 as [item batch Hnone | item batch _ IH]; simpl.
  - by rewrite Hnone.
  - destruct (Item.instr_length item); [simpl; by rewrite IH | done].
Qed.

Lemma keyed_sorted (l : list (Z * Item.t)) :
  keyed l → StronglySorted (λ p q, q.1 ≤ p.1) l →
  StronglySorted at_least_as_long l.*2.
Proof.
  intros Hkeys. induction 1 as [|p l Hl IH Hall]; [constructor|].
  apply Forall_cons in Hkeys as [Hp Hkeys].
  rewrite fmap_cons. constructor; [by apply IH|].
  apply Forall_fmap, Forall_forall. intros q Hq.
  rewrite Forall_forall in Hall. rewrite Forall_forall in Hkeys.
  unfold at_least_as_long. simpl. rewrite Hp, (Hkeys q Hq). by apply Hall.
Qed.

(** The call with sorting differs from the call without only in the last
    step. *)
Lemma next_minibatch_sort (self self0 : t) (g g0 : random.state)
    (drawn : list Item.t) :
  _next_minibatch self false g = Ok (self0, g0) →
  batch self0 = Some drawn →
  _next_minibatch self true g
    = sorted ← sorted_desc drawn; Ok (set_batch self0 sorted.*2, g0).
Proof.
  unfold _next_minibatch.
  destruct (bool_decide _); [destruct (random.shuffle _ _) as [data' g']|];
    simpl; intros [= <- <-] [= <-]; by destruct (sorted_desc _).
Qed.

(** X1. With [sort] set and every drawn task tokenized, [_next_minibatch]
    moves the cursor, the pool and the generator exactly as without
    sorting, and its batch holds the same tasks, longest instruction
    first. *)
Theorem sorted_batch_descending (self self0 : t) (g g0 : random.state)
    (drawn : list Item.t) :
  _next_minibatch self false g = Ok (self0, g0) →
  batch self0 = Some drawn →
  Forall (λ item, is_Some (Item.instr_length item)) drawn →
  ∃ sorted,
    _next_minibatch self true g = Ok (set_batch self0 sorted, g0) ∧
    sorted ≡ₚ drawn ∧
    StronglySorted at_least_as_long sorted.
Proof.
  intros Hcall Hdrawn Hlen.
  destruct (sorted_desc_Ok drawn Hlen) as (l & Hl & Hperm & Hkeys & Hsorted & _).
  exists l.*2. rewrite (next_minibatch_sort _ _ _ _ _ Hcall Hdrawn), Hl.
  split_and!; [done | done | by apply keyed_sorted].
Qed.

Lemma tokenized_draw :
  _next_minibatch Ex.tokenized false Ex.zeros
    = Ok (set_batch (set_ix Ex.tokenized 4) Ex.tokenized_pool, Ex.zeros).
Proof. reflexivity. Qed.

Lemma tokenized_lengths :
  Forall (λ item, is_Some (Item.instr_length item)) Ex.tokenized_pool.
Proof. repeat constructor; by eexists. Qed.

Lemma sorted_batch_descending_witness :
  ∃ sorted,
    _next_minibatch Ex.tokenized true Ex.zeros
      = Ok (set_batch (set_batch (set_ix Ex.tokenized 4) Ex.tokenized_pool) sorted,
            Ex.zeros) ∧
    sorted ≡ₚ Ex.tokenized_pool ∧
    StronglySorted at_least_as_long sorted.
Proof.
  exact (sorted_batch_descending Ex.tokenized _ Ex.zeros _ Ex.tokenized_pool
           tokenized_draw eq_refl tokenized_lengths).
Defined.

(** X2. The sort is stable: among the drawn tasks of one instruction
    length, the sorted batch keeps the order in which they were drawn. *)
Theorem sorted_batch_stable (self self0 self1 : t) (g g0 g1 : random.state)
    (drawn sorted : list Item.t) (k : Z) :
  _next_minibatch self false g = Ok (self0, g0) →
  batch self0 = Some drawn →
  _next_minibatch self true g = Ok (self1, g1) →
  batch self1 = Some sorted →
  filter (λ item, Item.instr_length item = Some k) sorted
    = filter (λ item, Item.instr_length item = Some k) drawn.
Proof.
  intros Hcall Hdrawn Hsort Hsorted.
  rewrite (next_minibatch_sort _ _ _ _ _ Hcall Hdrawn) in Hsort.
  destruct (decide (Forall (λ item, is_Some (Item.instr_length item)) drawn))
    as [Hlen|Hlen].
  - destruct (sorted_desc_Ok drawn Hlen) as (l & Hl & _ & Hkeys & _ & Hstable).
    rewrite Hl in Hsort. simpl in Hsort. injection Hsort as <- _.
    simpl in Hsorted. injection Hsorted as <-.
    rewrite <- Hstable. clear -Hkeys.
    induction Hkeys as [|p l Hp _ IH]; [done|].
    rewrite fmap_cons, !filter_cons, Hp, IH.
    destruct (decide (p.1 = k)) as [->|Hne];
      [by rewrite decide_True | by rewrite decide_False by congruence].
  - rewrite sorted_desc_KeyError in Hsort; [done|].
    apply not_Forall_Exists in Hlen; [|apply _].
    eapply Exists_impl; [exact Hlen|]. simpl. intros item Hitem.
    destruct (Item.instr_length item); [destruct Hitem; by eexists | done].
Qed.

Lemma tokenized_sorted_draw :
  _next_minibatch Ex.tokenized true Ex.zeros
    = Ok (set_batch (set_ix Ex.tokenized 4)
            [Ex.task_of_length "1_1" 9; Ex.task_of_length "2_1" 7;
             Ex.task_of_length "1_0" 5; Ex.task_of_length "2_0" 5], Ex.zeros).
Proof. reflexivity. Qed.

Lemma sorted_batch_stable_witness :
  filter (λ item, Item.instr_length item = Some 5)
         [Ex.task_of_length "1_1" 9; Ex.task_of_length "2_1" 7;
          Ex.task_of_length "1_0" 5; Ex.task_of_length "2_0" 5]
    = filter (λ item, Item.instr_length item = Some 5) Ex.tokenized_pool.
Proof.
  eapply (sorted_batch_stable Ex.tokenized);
    [exact tokenized_draw | reflexivity | exact tokenized_sorted_draw | reflexivity].
Defined.

(** X3. With [sort] set, [_next_minibatch] raises [KeyError] as soon as
    one drawn task carries no instruction length, as every task does when
    the environment was built without a tokenizer. *)
Theorem sorted_batch_KeyError (self self0 : t) (g g0 : random.state)
    (drawn : list Item.t) :
  _next_minibatch self false g = Ok (self0, g0) →
  batch self0 = Some drawn →
  Exists (λ item, Item.instr_length item = None) drawn →
  _next_minibatch self true g = Raise KeyError.
Proof.
  intros Hcall Hdrawn Hnone.
  rewrite (next_minibatch_sort _ _ _ _ _ Hcall Hdrawn).
  by rewrite sorted_desc_KeyError.
Qed.

Lemma sorted_batch_KeyError_witness :
  _next_minibatch Ex.at_last_batch true Ex.zeros = Raise KeyError.
Proof.
  apply (sorted_batch_KeyError Ex.at_last_batch
           (set_batch (set_ix Ex.at_last_batch 4) [Ex.task "7_2"; Ex.task "8_0"])
           Ex.zeros Ex.zeros [Ex.task "7_2"; Ex.task "8_0"]);
    [reflexivity | reflexivity |].
  by constructor.
Defined.

(** ** The cursor: replay from [reset_epoch], and its bound *)

Lemma draw_mid (k : nat) :
  ∀ (self : t) (g : random.state),
    (ix self + k * batch_size self ≤ length (data self))%nat →
    ∃ self',
      draw k self false g
        = Ok ((λ j, take (batch_size self)
                      (drop (ix self + j * batch_size self) (data self)))
                <$> seq 0 k, self', g) ∧
      data self' = data self ∧ batch_size self' = batch_size self ∧
      ix self' = (ix self + k * batch_size self)%nat.
Proof.
  induction k as [|k IH]; intros self g Hk.
  { exists self. simpl. split_and!; [done | done | done | lia]. }
  simpl. rewrite next_minibatch_mid by lia. simpl.
  destruct (IH (set_batch (set_ix self (ix self + batch_size self))
                  (take (batch_size self) (drop (ix self) (data self)))) g)
    as (self' & -> & Hdata & HB & Hix); [simpl; lia|].
  exists self'. simpl in *. split_and!; [| done | done | lia].
  assert (Hmap :
    (λ j, take (batch_size self)
            (drop (ix self + batch_size self + j * batch_size self) (data self)))
      <$> seq 0 k
    = (λ j, take (batch_size self)
              (drop (ix self + j * batch_size self) (data self))) <$> seq 1 k).
  { rewrite <- fmap_S_seq, <- list_fmap_compose. apply list_fmap_ext.
    intros _ j _. simpl. do 2 f_equal. lia. }
  by rewrite Hmap, Nat.add_0_r.
Qed.

(** X4. After [reset_epoch], [k] calls whose batches fit in the pool
    return the slices [data[j*B:(j+1)*B]] for j = 0..k-1, in the order the
    pool has; the pool is not reshuffled and the generator is not used, so
    the pass can be replayed. *)
Theorem reset_epoch_replay (self : t) (g : random.state) (k : nat) :
  (k * batch_size self ≤ length (data self))%nat →
  let slices :=
    (λ j, take (batch_size self) (drop (j * batch_size self) (data self)))
      <$> seq 0 k in
  ∃ self' self'',
    draw k (reset_epoch self) false g = Ok (slices, self', g) ∧
    data self' = data self ∧
    ix self' = (k * batch_size self)%nat ∧
    draw k (reset_epoch self') false g = Ok (slices, self'', g).
Proof.
  intros Hk slices.
  destruct (draw_mid k (reset_epoch self) g) as (self' & Hdraw & Hdata & HB & Hix);
    [unfold reset_epoch; simpl; lia|].
  unfold reset_epoch in *. simpl in *.
  destruct (draw_mid k (set_ix self' 0) g) as (self'' & Hdraw' & _);
    [simpl; rewrite HB, Hdata; lia|].
  simpl in *. rewrite HB, Hdata in Hdraw'.
  by exists self', self''.
Qed.

Lemma reset_epoch_replay_witness :
  ∃ self' self'',
    draw 2 (reset_epoch Ex.at_wrap) false Ex.zeros
      = Ok ([[Ex.task "7_0"; Ex.task "7_1"]; [Ex.task "7_2"; Ex.task "8_0"]],
            self', Ex.zeros) ∧
    data self' = Ex.pool ∧
    ix self' = 4%nat ∧
    draw 2 (reset_epoch self') false Ex.zeros
      = Ok ([[Ex.task "7_0"; Ex.task "7_1"]; [Ex.task "7_2"; Ex.task "8_0"]],
            self'', Ex.zeros).
Proof.
  apply (reset_epoch_replay Ex.at_wrap Ex.zeros 2). simpl. lia.
Defined.

(** The object after a call without sorting, with the bounds it keeps. *)
Lemma next_minibatch_bounds (self : t) (g : random.state) :
  ∃ self0 g0 drawn,
    _next_minibatch self false g = Ok (self0, g0) ∧
    batch self0 = Some drawn ∧
    length (data self0) = length (data self) ∧
    batch_size self0 = batch_size self ∧
    ((batch_size self ≤ length (data self))%nat →
     (ix self ≤ length (data self))%nat →
       (ix self0 ≤ length (data self0))%nat) ∧
    (length drawn ≤ 2 * length (data self))%nat.
Proof.
  destruct (decide (length (data self) - ix self < batch_size self)%nat) as [Hw|Hm].
  - rewrite (next_minibatch_wrap _ _ Hw). cbv zeta.
    pose proof (shuffle_Permutation (data self) g) as Hperm.
    apply Permutation_length in Hperm.
    eexists _, _, _. split_and!; [done | done | done | done | |]; simpl.
    + rewrite Hperm, length_drop. lia.
    + rewrite length_app, length_take, length_drop, Hperm. lia.
  - rewrite (next_minibatch_mid self g) by lia.
    eexists _, _, _. split_and!; [done | done | done | done | |]; simpl.
    + lia.
    + rewrite length_take, length_drop. lia.
Qed.

(** X5. With no more tasks in a batch than in the pool, a cursor within
    the pool is within the pool again after every successful call, sorted
    or not, and the call changes neither the size of the pool nor the
    batch size. *)
Theorem cursor_within_pool (self self' : t) (sort : bool) (g g' : random.state) :
  (batch_size self ≤ length (data self))%nat →
  (ix self ≤ length (data self))%nat →
  _next_minibatch self sort g = Ok (self', g') →
  (ix self' ≤ length (data self'))%nat ∧
  length (data self') = length (data self) ∧
  batch_size self' = batch_size self.
Proof.
  intros HB Hcursor Hcall.
  destruct (next_minibatch_bounds self g)
    as (self0 & g0 & drawn & Hfalse & Hdrawn & Hlen & Hsize & Hix & _).
  specialize (Hix HB Hcursor). destruct sort.
  - rewrite (next_minibatch_sort _ _ _ _ _ Hfalse Hdrawn) in Hcall.
    destruct (sorted_desc drawn); [|done]. simpl in Hcall.
    injection Hcall as <- _. done.
  - rewrite Hfalse in Hcall. injection Hcall as <- _. done.
Qed.

Lemma cursor_within_pool_witness :
  let self' :=
    set_batch (set_ix (set_data Ex.at_wrap (random.shuffle Ex.pool Ex.zeros).1) 1)
      [Ex.task "8_0"; Ex.task "7_1"] in
  (ix self' ≤ length (data self'))%nat ∧
  length (data self') = length (data Ex.at_wrap) ∧
  batch_size self' = batch_size Ex.at_wrap.
Proof.
  exact (cursor_within_pool Ex.at_wrap
           (set_batch (set_ix (set_data Ex.at_wrap (random.shuffle Ex.pool Ex.zeros).1) 1)
              [Ex.task "8_0"; Ex.task "7_1"])
           false Ex.zeros (random.shuffle Ex.pool Ex.zeros).2
           ltac:(simpl; lia) ltac:(simpl; lia) eq_refl).
Defined.

(** ** The oracle: failures, tilt before turning, shape of the answer *)

(** X6. Away from the goal the oracle needs the precomputed path: when
    the table has no entry for the scan, the current viewpoint or the goal
    it raises [KeyError], and when the entry has fewer than two viewpoints
    it raises [IndexError]; the navigable locations play no part. *)
Theorem oracle_needs_path (self : t) (state : SimState.t) (goal : string) :
  Viewpoint.viewpointId (SimState.location state) ≠ goal →
  let entry :=
    by_src ← paths self !! SimState.scanId state;
    by_dst ← by_src !! Viewpoint.viewpointId (SimState.location state);
    by_dst !! goal in
  (entry = None → _shortest_path_action self state goal = Raise KeyError) ∧
  (∀ path, entry = Some path → (length path < 2)%nat →
     _shortest_path_action self state goal = Raise IndexError).
Proof.
  intros Hne. cbv zeta. unfold _shortest_path_action, next_hop, getitem, index.
  rewrite decide_False by done.
  destruct (paths self !! SimState.scanId state) as [by_src|]; simpl;
    [|split; [done | intros ? [=]]].
  destruct (by_src !! _) as [by_dst|]; simpl; [|split; [done | intros ? [=]]].
  destruct (by_dst !! goal) as [path|]; simpl; [|split; [done | intros ? [=]]].
  split; [done|]. intros ? [= <-] Hlen.
  rewrite (lookup_ge_None_2 path 1) by lia. done.
Qed.

Lemma oracle_needs_path_witness :
  _shortest_path_action Ex.bare Ex.state_level "G" = Raise KeyError ∧
  _shortest_path_action Ex.self Ex.state_level "B" = Raise KeyError.
Proof.
  split.
  - by apply (oracle_needs_path Ex.bare Ex.state_level "G").
  - by apply (oracle_needs_path Ex.self Ex.state_level "B").
Defined.

(** X7. When the next hop is not among the navigable locations, the
    oracle first levels the camera: it answers look-up (0,0,1) from the
    bottom band and look-down (0,0,-1) from the top band, without reading
    the graph, whatever the heading is. *)
Theorem oracle_levels_camera (self : t) (state : SimState.t) (goal next : string) :
  Viewpoint.viewpointId (SimState.location state) ≠ goal →
  next_hop self state goal = Ok next →
  Forall (λ loc, Viewpoint.viewpointId loc ≠ next)
         (SimState.navigableLocations state) →
  (SimState.viewIndex state `div` 12 = 0 →
     _shortest_path_action self state goal = Ok (0, 0, 1)) ∧
  (SimState.viewIndex state `div` 12 = 2 →
     _shortest_path_action self state goal = Ok (0, 0, -1)).
Proof.
  intros Hne Hnext Hhidden.
  rewrite (oracle_not_at_goal _ _ _ _ Hne Hnext).
  apply (scan_navigable_None _ _ (SimState.viewIndex state) 0) in Hhidden.
  rewrite Hhidden. split; intros Hband.
  - by rewrite decide_True.
  - rewrite decide_False by lia. by rewrite decide_True.
Qed.

(** X8. With the hop hidden and the camera in neither the bottom nor the
    top band, the oracle needs the position of the next hop: it raises
    [KeyError] when the graphs hold no such scan or no such node. *)
Theorem oracle_needs_position (self : t) (state : SimState.t) (goal next : string) :
  Viewpoint.viewpointId (SimState.location state) ≠ goal →
  next_hop self state goal = Ok next →
  Forall (λ loc, Viewpoint.viewpointId loc ≠ next)
         (SimState.navigableLocations state) →
  SimState.viewIndex state `div` 12 ≠ 0 →
  SimState.viewIndex state `div` 12 ≠ 2 →
  (G ← graphs self !! SimState.scanId state; G !! next) = None →
  _shortest_path_action self state goal = Raise KeyError.
Proof.
  intros Hne Hnext Hhidden Hb0 Hb2 Hpos.
  rewrite (oracle_not_at_goal _ _ _ _ Hne Hnext).
  apply (scan_navigable_None _ _ (SimState.viewIndex state) 0) in Hhidden.
  rewrite Hhidden, !decide_False by done. unfold getitem.
  destruct (graphs self !! SimState.scanId state) as [G|]; simpl in *; [|done].
  by rewrite Hpos.
Qed.

(** X9. Every answer of the oracle changes at most one thing: it is a
    move (i,0,0) with i = 0 or i the index of a navigable location, a turn
    (0,1,0) or (0,-1,0), or a tilt (0,0,1) or (0,0,-1). *)
Theorem oracle_answer_shape (self : t) (state : SimState.t) (goal : string)
    (i h e : Z) :
  _shortest_path_action self state goal = Ok (i, h, e) →
  (h = 0 ∧ e = 0 ∧
     0 ≤ i ∧ (i = 0 ∨ i < Z.of_nat (length (SimState.navigableLocations state)))) ∨
  (i = 0 ∧ e = 0 ∧ (h = 1 ∨ h = -1)) ∨
  (i = 0 ∧ h = 0 ∧ (e = 1 ∨ e = -1)).
Proof.
  intros Hres. apply oracle_Ok_inv in Hres.
  destruct Hres as [[_ [= -> -> ->]] | (next & _ & [(k & loc & Hk & _ & Ha) | Hblind])].
  - left. lia.
  - apply lookup_lt_Some in Hk.
    destruct (face_and_move_cases k loc (SimState.viewIndex state))
      as [[E _]|[[E _]|[(E & _)|[(E & _)|[E _]]]]];
      rewrite E in Ha; injection Ha as -> -> ->; [naive_solver.. |].
    left. lia.
  - destruct Hblind as [[_ [= -> -> ->]]|[[_ [= -> -> ->]]|(_ & _ & [[= -> -> ->]|[= -> -> ->]])]];
      naive_solver.
Qed.

Lemma oracle_answer_shape_witness :
  (0 = 0 ∧ 0 = 0 ∧
     0 ≤ 1 ∧ (1 = 0 ∨ 1 < Z.of_nat (length (SimState.navigableLocations Ex.state_level)))) ∨
  (1 = 0 ∧ 0 = 0 ∧ (0 = 1 ∨ 0 = -1)) ∨
  (1 = 0 ∧ 0 = 0 ∧ (0 = 1 ∨ 0 = -1)).
Proof.
  exact (oracle_answer_shape Ex.self Ex.state_level "G" 1 0 0 level_state_moves).
Defined.

(** X10. The oracle answers (0,0,0) only at the goal, or when the next
    hop is navigable location 0 and lies within 30 degrees of the
    heading. *)
Theorem oracle_noop_only (self : t) (state : SimState.t) (goal : string) :
  _shortest_path_action self state goal = Ok (0, 0, 0) →
  Viewpoint.viewpointId (SimState.location state) = goal ∨
  ∃ loc, SimState.navigableLocations state !! 0%nat = Some loc ∧
         next_hop self state goal = Ok (Viewpoint.viewpointId loc) ∧
         (Rabs (Viewpoint.rel_heading loc) <= PI / 6)%R.
Proof.
  intros Hres. apply oracle_Ok_inv in Hres.
  destruct Hres as [[? _] | (next & Hnext & [(k & loc & Hk & Hid & Ha) | Hblind])].
  - by left.
  - right.
    destruct (face_and_move_cases k loc (SimState.viewIndex state))
      as [[E _]|[[E _]|[(E & _)|[(E & _)|[E Hrh]]]]];
      rewrite E in Ha; try discriminate Ha.
    injection Ha as Hk0. assert (k = 0%nat) as -> by lia.
    exists loc. split_and!; [done | by rewrite Hid |]. apply Rabs_le. lra.
  - destruct Hblind as [[_ [=]]|[[_ [=]]|(_ & _ & [[=]|[=]])]].
Qed.

Lemma oracle_noop_only_witness :
  Viewpoint.viewpointId (SimState.location Ex.state_at_goal) = "A" ∨
  ∃ loc, SimState.navigableLocations Ex.state_at_goal !! 0%nat = Some loc ∧
         next_hop Ex.bare Ex.state_at_goal "A" = Ok (Viewpoint.viewpointId loc) ∧
         (Rabs (Viewpoint.rel_heading loc) <= PI / 6)%R.
Proof.
  apply (oracle_noop_only Ex.bare Ex.state_at_goal "A"). reflexivity.
Defined.

Lemma oracle_levels_camera_witness :
  _shortest_path_action Ex.paths_only Ex.state_blind_low "G" = Ok (0, 0, 1).
Proof.
  destruct (oracle_levels_camera Ex.paths_only Ex.state_blind_low "G" "B")
    as [Hup _]; [done | reflexivity | by repeat constructor |].
  by apply Hup.
Defined.

Lemma oracle_needs_position_witness :
  _shortest_path_action Ex.paths_only Ex.state_blind "G" = Raise KeyError.
Proof.
  apply (oracle_needs_position Ex.paths_only Ex.state_blind "G" "B");
    [done | reflexivity | by repeat constructor | done | done | reflexivity].
Defined.

(** ** [EnvBatch]: construction, shape and identities *)

Lemma new_beam_calls (f : ImageFeatures.t) (b : nat) :
  ∀ c, Forall (λ sim, Sim.calls sim = configured f) (EnvBatch.new_beam f b c).1.
Proof.
  induction b as [|b IH]; intros c; simpl; [constructor|].
  specialize (IH (S c)).
  destruct (EnvBatch.new_beam f b (S c)) as [beam c']. by constructor.
Qed.

Lemma new_sims_calls (f : ImageFeatures.t) (n b : nat) :
  ∀ c, Forall (Forall (λ sim, Sim.calls sim = configured f))
         (EnvBatch.new_sims f n b c).1.
Proof.
  induction n as [|n IH]; intros c; simpl; [constructor|].
  pose proof (new_beam_calls f b c) as Hbeam.
  destruct (EnvBatch.new_beam f b c) as [beam c1].
  specialize (IH c1).
  destruct (EnvBatch.new_sims f n b c1) as [rest c2]. by constructor.
Qed.

(** X11. [EnvBatch(image_features, batch_size, beam_size)] holds
    [batch_size] beams of [beam_size] simulators; no simulator object
    sits in two slots, and each one has received exactly the five
    configuration calls: rendering off, discretized viewing angles on, the
    camera resolution and field of view of the image features, then
    [init]. *)
Theorem EnvBatch_init_fresh (f : ImageFeatures.t) (n b c : nat) :
  let env := (EnvBatch.__init__ f n b c).1 in
  EnvBatch.batch_size env = n ∧
  EnvBatch.beam_size env = b ∧
  length (EnvBatch.sims env) = n ∧
  Forall (λ beam, length beam = b) (EnvBatch.sims env) ∧
  NoDup (Sim.id <$> concat (EnvBatch.sims env)) ∧
  Forall (λ sim, Sim.calls sim = configured f) (concat (EnvBatch.sims env)).
Proof.
  cbv zeta. unfold EnvBatch.__init__.
  destruct (new_sims_spec f n b c) as (_ & H2 & H3 & H4).
  pose proof (new_sims_calls f n b c) as Hcalls.
  destruct (EnvBatch.new_sims f n b c) as [sims c']; simpl in *.
  split_and!; [done | done | done | done | |].
  - rewrite H4. apply NoDup_seq.
  - by apply Forall_concat.
Qed.

Lemma start_slot0_identities (sims : list (list Sim.t)) :
  ∀ poses : list WorldState.t,
    length poses = length sims →
    identities (zip_with start_slot0 sims poses) = identities sims.
Proof.
  unfold identities.
  induction sims as [|beam sims IH]; intros [|pose poses] Hlen; try done.
  simpl. rewrite IH by (simpl in Hlen; lia). by destruct beam.
Qed.

Lemma newEpisodes_Ok_lengths (self self' : EnvBatch.t)
    (scanIds viewpointIds : list string) (headings : list R) (beamed : bool)
    (world_states : batch_of beamed WorldState.t) :
  EnvBatch.newEpisodes self scanIds viewpointIds headings beamed
    = Ok (world_states, self') →
  length scanIds = length (EnvBatch.sims self) ∧
  length viewpointIds = length (EnvBatch.sims self) ∧
  length headings = length (EnvBatch.sims self).
Proof.
  unfold EnvBatch.newEpisodes.
  destruct (decide (length scanIds = length viewpointIds)) as [H1|H1];
    [|by rewrite (bool_decide_eq_false_2 _ H1)].
  destruct (decide (length headings = length viewpointIds)) as [H2|H2];
    [|by rewrite (bool_decide_eq_true_2 _ H1), (bool_decide_eq_false_2 _ H2)].
  destruct (decide (length scanIds = length (EnvBatch.sims self))) as [H3|H3];
    [|by rewrite (bool_decide_eq_true_2 _ H1), (bool_decide_eq_true_2 _ H2),
                 (bool_decide_eq_false_2 _ H3)].
  intros _. lia.
Qed.

Lemma identities_shape (sims sims' : list (list Sim.t)) (b : nat) :
  identities sims' = identities sims →
  length sims' = length sims ∧
  (Forall (λ beam, length beam = b) sims → Forall (λ beam, length beam = b) sims').
Proof.
  unfold identities. intros Hids. split.
  - apply (f_equal length) in Hids. by rewrite !length_fmap in Hids.
  - revert sims' Hids. induction sims as [|beam sims IH];
      intros [|beam' sims'] Hids Hall; try done.
    simpl in Hids. injection Hids as Hbeam Hrest.
    apply Forall_cons in Hall as [Hb Hall].
    constructor; [|by apply IH].
    apply (f_equal length) in Hbeam. rewrite !length_fmap in Hbeam. lia.
Qed.

(** X12. A successful [newEpisodes] on an [EnvBatch] with at least one
    beam slot returns one entry per agent and keeps the environment as it
    was built: the same simulator objects in the same slots, the same
    sizes, the same image features. *)
Theorem newEpisodes_keeps_shape (self self' : EnvBatch.t)
    (scanIds viewpointIds : list string) (headings : list R) (beamed : bool)
    (world_states : batch_of beamed WorldState.t) :
  well_shaped self →
  EnvBatch.newEpisodes self scanIds viewpointIds headings beamed
    = Ok (world_states, self') →
  batch_len beamed world_states = EnvBatch.batch_size self ∧
  identities (EnvBatch.sims self') = identities (EnvBatch.sims self) ∧
  EnvBatch.batch_size self' = EnvBatch.batch_size self ∧
  EnvBatch.beam_size self' = EnvBatch.beam_size self ∧
  EnvBatch.image_features self' = EnvBatch.image_features self ∧
  well_shaped self'.
Proof.
  intros Hshape Hcall.
  pose proof (well_shaped_beams self Hshape) as Hbeams.
  destruct (newEpisodes_Ok_lengths _ _ _ _ _ _ _ Hcall) as (Hs & Hv & Hh).
  rewrite (newEpisodes_ok self _ _ _ beamed Hbeams Hs Hv Hh) in Hcall.
  injection Hcall as <- <-. simpl.
  assert (Hposes : length (initial_pose <$> zip (zip scanIds viewpointIds) headings)
                   = length (EnvBatch.sims self))
    by (rewrite length_fmap, !length_zip_with; lia).
  pose proof (start_slot0_identities (EnvBatch.sims self) _ Hposes) as Hids.
  destruct Hshape as (Hn & Hb & Hpos).
  destruct (identities_shape _ _ (EnvBatch.beam_size self) Hids) as [Hlen Hall].
  split_and!; try done.
  - rewrite append_states_len, Hposes, Hn. by destruct beamed.
  - split_and!; simpl; [congruence | by apply Hall | done].
Qed.

Lemma newEpisodes_keeps_shape_witness :
  ∃ world_states self',
    EnvBatch.newEpisodes Ex.env22 ["scan"; "scan"] ["A"; "B"] [0%R; 1%R] true
      = Ok (world_states, self') ∧
    identities (EnvBatch.sims self') = [[0; 1]; [2; 3]]%nat ∧
    well_shaped self'.
Proof.
  pose proof (newEpisodes_ok Ex.env22 ["scan"; "scan"] ["A"; "B"] [0%R; 1%R] true
                (well_shaped_beams _ env22_well_shaped) eq_refl eq_refl eq_refl)
    as Hcall.
  eexists _, _. split; [exact Hcall|].
  destruct (newEpisodes_keeps_shape Ex.env22 _ _ _ _ true _
              env22_well_shaped Hcall) as (_ & Hids & _ & _ & _ & Hshape).
  split; [exact Hids | exact Hshape].
Defined.

Lemma simple_f_identity (sim sim' : Sim.t) (index : Z) :
  EnvBatch.makeSimpleActions_f sim index = Ok sim' → Sim.id sim' = Sim.id sim.
Proof.
  unfold EnvBatch.makeSimpleActions_f.
  repeat case_decide; intros [= <-]; done.
Qed.

Lemma map_beam_identities (beam : list Sim.t) :
  ∀ (indices : list Z) (beam' : list Sim.t),
    map_beam EnvBatch.makeSimpleActions_f beam indices = Ok beam' →
    Sim.id <$> beam' = Sim.id <$> beam.
Proof.
  induction beam as [|sim beam IH]; intros [|index indices] beam' H;
    simpl in H; try (by injection H as <-).
  apply bind_Ok_inv in H as (sim' & Hsim & H).
  apply bind_Ok_inv in H as (rest & Hrest & [= <-]).
  by rewrite !fmap_cons, (simple_f_identity _ _ _ Hsim), (IH _ _ Hrest).
Qed.

Lemma map_nested_identities (sims : list (list Sim.t)) :
  ∀ (indices : list (list Z)) (sims' : list (list Sim.t)),
    map_nested EnvBatch.makeSimpleActions_f sims indices = Ok sims' →
    identities sims' = identities sims.
Proof.
  induction sims as [|beam sims IH]; intros [|row indices] sims' H;
    simpl in H; try (by injection H as <-).
  apply bind_Ok_inv in H as (beam' & Hbeam & H).
  apply bind_Ok_inv in H as (rest & Hrest & [= <-]).
  unfold identities in *.
  by rewrite !fmap_cons, (map_beam_identities _ _ _ Hbeam), (IH _ _ Hrest).
Qed.

Lemma map_first_slot_identities (sims : list (list Sim.t)) :
  ∀ (indices : list Z) (sims' : list (list Sim.t)),
    map_first_slot EnvBatch.makeSimpleActions_f sims indices = Ok sims' →
    identities sims' = identities sims.
Proof.
  induction sims as [|beam sims IH]; intros indices sims' H;
    simpl in H; [by injection H as <-|].
  apply bind_Ok_inv in H as (sim & Hsim & H).
  destruct indices as [|index indices]; [by injection H as <-|].
  apply bind_Ok_inv in H as (sim' & Hsim' & H).
  apply bind_Ok_inv in H as (rest & Hrest & [= <-]).
  unfold identities in *. rewrite !fmap_cons, (IH _ _ Hrest). f_equal.
  apply index_Ok in Hsim. destruct beam as [|sim0 others]; [done|].
  injection Hsim as ->. simpl. by rewrite (simple_f_identity _ _ _ Hsim').
Qed.

(** X13. A [makeSimpleActions] call that returns keeps the same simulator
    objects in the same slots, whatever the shape of the indices, and so
    keeps the shape of the environment. *)
Theorem makeSimpleActions_keeps_shape (self self' : EnvBatch.t) (beamed : bool)
    (simple_indices : batch_of beamed Z) :
  EnvBatch.makeSimpleActions self beamed simple_indices = Ok self' →
  identities (EnvBatch.sims self') = identities (EnvBatch.sims self) ∧
  EnvBatch.batch_size self' = EnvBatch.batch_size self ∧
  EnvBatch.beam_size self' = EnvBatch.beam_size self ∧
  (well_shaped self → well_shaped self').
Proof.
  unfold EnvBatch.makeSimpleActions. intros H.
  apply bind_Ok_inv in H as (sims' & Hmap & [= <-]). simpl.
  assert (Hids : identities sims' = identities (EnvBatch.sims self)).
  { destruct beamed; simpl in Hmap;
      [by eapply map_nested_identities | by eapply map_first_slot_identities]. }
  split_and!; [done | done | done |].
  intros (Hn & Hb & Hpos).
  destruct (identities_shape _ _ (EnvBatch.beam_size self) Hids) as [Hlen Hall].
  split_and!; simpl; [congruence | by apply Hall | done].
Qed.

Lemma makeSimpleActions_keeps_shape_witness :
  ∃ self',
    EnvBatch.makeSimpleActions Ex.env22 false [0; 3] = Ok self' ∧
    identities (EnvBatch.sims self') = [[0; 1]; [2; 3]]%nat.
Proof.
  eexists. split; [reflexivity|].
  by destruct (makeSimpleActions_keeps_shape Ex.env22 _ false [0; 3] eq_refl)
    as (-> & _).
Defined.

Lemma new_sims_no_slots (f : ImageFeatures.t) (n : nat) :
  ∀ c, (EnvBatch.new_sims f n 0 c).1 = replicate n [].
Proof.
  induction n as [|n IH]; intros c; simpl; [done|].
  specialize (IH c). destruct (EnvBatch.new_sims f n 0 c) as [rest c'].
  simpl in *. by rewrite IH.
Qed.

(** X14. An [EnvBatch] built with beam size 0 for at least one agent
    cannot start episodes: with inputs of the right length [newEpisodes]
    raises [IndexError] at the first agent, on [self.sims[0][0]]. *)
Theorem newEpisodes_no_slots (f : ImageFeatures.t) (n c : nat)
    (scanIds viewpointIds : list string) (headings : list R) (beamed : bool) :
  (0 < n)%nat →
  length scanIds = n → length viewpointIds = n → length headings = n →
  EnvBatch.newEpisodes (EnvBatch.__init__ f n 0 c).1
                       scanIds viewpointIds headings beamed
    = Raise IndexError.
Proof.
  intros Hn Hs Hv Hh. unfold EnvBatch.__init__, EnvBatch.newEpisodes.
  pose proof (new_sims_no_slots f n c) as Hsims.
  destruct (EnvBatch.new_sims f n 0 c) as [sims c']. simpl in *. subst sims.
  rewrite !bool_decide_eq_true_2 by (rewrite ?length_replicate; congruence).
  simpl.
  destruct scanIds as [|scanId scanIds]; [simpl in Hs; lia|].
  destruct viewpointIds as [|viewpointId viewpointIds]; [simpl in Hv; lia|].
  destruct headings as [|heading headings]; [simpl in Hh; lia|].
  destruct n as [|n]; [lia|]. reflexivity.
Qed.

Lemma newEpisodes_no_slots_witness :
  EnvBatch.newEpisodes (EnvBatch.__init__ Ex.features 1 0 0).1
                       ["scan"] ["A"] [0%R] false
    = Raise IndexError.
Proof.
  apply (newEpisodes_no_slots Ex.features 1 0 ["scan"] ["A"] [0%R] false);
    [lia | done | done | done].
Defined.

(** ** Keys made of two parts joined by an underscore *)

Lemma append_empty (s : string) : "" +:+ s = s.
Proof. reflexivity. Qed.

Lemma append_String (a : ascii) (s1 s2 : string) :
  String a s1 +:+ s2 = String a (s1 +:+ s2).
Proof. reflexivity. Qed.

Lemma joined_inj (s1 s2 v1 v2 : string) :
  has_char "_"%char s1 = false → has_char "_"%char s2 = false →
  s1 +:+ "_" +:+ v1 = s2 +:+ "_" +:+ v2 → s1 = s2 ∧ v1 = v2.
Proof.
  revert s2. induction s1 as [|a s1 IH]; intros [|b s2] H1 H2 Heq;
    repeat (rewrite append_empty in Heq || rewrite append_String in Heq);
    simpl in H1, H2.
  - by injection Heq as ->.
  - injection Heq as <- _. by rewrite bool_decide_eq_true_2 in H2.
  - injection Heq as -> _. by rewrite bool_decide_eq_true_2 in H1.
  - injection Heq as -> Heq.
    apply orb_false_iff in H1 as [_ H1]. apply orb_false_iff in H2 as [_ H2].
    destruct (IH s2 H1 H2 Heq) as [-> ->]. done.
Qed.

Lemma append_assoc (s1 s2 s3 : string) : (s1 +:+ s2) +:+ s3 = s1 +:+ (s2 +:+ s3).
Proof.
  induction s1 as [|a s1 IH]; [done|]. by rewrite !append_String, IH.
Qed.

(** X15. [_make_id] gives different keys to different (scan, viewpoint)
    pairs as long as the scan ids hold no underscore; with an underscore
    in a scan id two pairs can share a key, since joining is
    associative. *)
Theorem make_id_injective (scanId1 scanId2 viewpointId1 viewpointId2 : string) :
  (has_char "_"%char scanId1 = false → has_char "_"%char scanId2 = false →
   ImageFeatures._make_id scanId1 viewpointId1
     = ImageFeatures._make_id scanId2 viewpointId2 →
   scanId1 = scanId2 ∧ viewpointId1 = viewpointId2) ∧
  ImageFeatures._make_id (ImageFeatures._make_id scanId1 scanId2) viewpointId1
    = ImageFeatures._make_id scanId1 (ImageFeatures._make_id scanId2 viewpointId1).
Proof.
  unfold ImageFeatures._make_id. split; [apply joined_inj|].
  by rewrite !append_assoc.
Qed.

Lemma pretty_N_char_plain (x : N) : pretty_N_char x ≠ "_"%char.
Proof. unfold pretty_N_char. by repeat case_match. Qed.

Lemma pretty_N_go_plain (x : N) :
  ∀ s, has_char "_"%char s = false → has_char "_"%char (pretty_N_go x s) = false.
Proof.
  induction (N.lt_wf_0 x) as [x _ IH]; intros s Hs.
  assert (x = 0 ∨ 0 < x)%N as [->|Hx] by lia; [by rewrite pretty_N_go_0|].
  rewrite pretty_N_go_step by done. apply IH; [by apply N.div_lt|].
  cbn [has_char]. rewrite Hs, orb_false_r.
  apply bool_decide_eq_false_2, pretty_N_char_plain.
Qed.

Lemma pretty_N_plain (x : N) : has_char "_"%char (pretty x) = false.
Proof.
  unfold pretty, pretty_N. case_decide; [done|]. by apply pretty_N_go_plain.
Qed.

Lemma pretty_Z_plain (x : Z) : has_char "_"%char (pretty x) = false.
Proof.
  destruct x as [|p|p]; [done | apply pretty_N_plain |].
  change (pretty (Z.neg p)) with (String "-" (pretty (N.pos p))).
  cbn [has_char]. by rewrite pretty_N_plain.
Qed.

(** ** The constructor of [R2RBatch] *)

Lemma split_instructions_lookup (tokenizer : option (string → Z)) (item : Dataset.t)
    (instructions : list string) :
  ∀ j0 k,
    split_instructions tokenizer item j0 instructions !! k
      = (λ instr,
           Item.mk (pretty (Dataset.path_id item) +:+ "_" +:+ pretty (j0 + k)%nat)
             (Dataset.scan item) (Dataset.path item) (Dataset.heading item)
             instr ((λ encode_length, encode_length instr) <$> tokenizer))
        <$> instructions !! k.
Proof.
  induction instructions as [|instr rest IH]; intros j0 k; [done|].
  destruct k as [|k]; simpl.
  - by rewrite Nat.add_0_r.
  - rewrite IH. by replace (S j0 + k)%nat with (j0 + S k)%nat by lia.
Qed.

Lemma elem_of_split_dataset (tokenizer : option (string → Z))
    (dataset : list Dataset.t) (entry : Item.t) :
  entry ∈ split_dataset tokenizer dataset ↔
  ∃ item j, item ∈ dataset ∧ made_from tokenizer item j entry.
Proof.
  unfold split_dataset, made_from. rewrite list_elem_of_bind.
  split.
  - intros (item & Hentry & Hitem). exists item.
    apply list_elem_of_lookup in Hentry as [k Hk].
    rewrite split_instructions_lookup in Hk. simpl in Hk.
    destruct (Dataset.instructions item !! k) as [instr|] eqn:Hinstr; [|done].
    injection Hk as <-. eauto.
  - intros (item & j & Hitem & instr & Hinstr & ->). exists item. split; [|done].
    apply list_elem_of_lookup. exists j.
    rewrite split_instructions_lookup, Hinstr. done.
Qed.

Lemma length_split_instructions (tokenizer : option (string → Z)) (item : Dataset.t)
    (instructions : list string) :
  ∀ j0, length (split_instructions tokenizer item j0 instructions)
        = length instructions.
Proof. induction instructions as [|instr rest IH]; intros j0; simpl; auto. Qed.

Lemma length_split_dataset (tokenizer : option (string → Z))
    (dataset : list Dataset.t) :
  length (split_dataset tokenizer dataset)
    = sum_list ((λ item, length (Dataset.instructions item)) <$> dataset).
Proof.
  unfold split_dataset. induction dataset as [|item dataset IH]; [done|].
  rewrite bind_cons, length_app, length_split_instructions, IH. done.
Qed.

(** The object the constructor returns, written out. *)
Lemma init_unfold (f : ImageFeatures.t) (B : nat) (seeded : random.state)
    (dataset : list Dataset.t) (tokenizer : option (string → Z)) (b : nat)
    (load_nav : gset string →
                gmap string (gmap string Point) *
                gmap string (gmap string (gmap string (list string))))
    (c : nat) :
  __init__ f B seeded dataset tokenizer b load_nav c =
    let entries := split_dataset tokenizer dataset in
    let nav := load_nav (list_to_set (Item.scan <$> entries)) in
    (mk f (random.shuffle entries seeded).1 0 B nav.1 nav.2 (Some b)
        (Some (EnvBatch.__init__ f B b c).1) None,
     (random.shuffle entries seeded).2,
     (EnvBatch.__init__ f B b c).2).
Proof.
  unfold __init__. cbv zeta.
  destruct (random.shuffle _ seeded) as [data g].
  destruct (load_nav _) as [graphs paths].
  rewrite set_beam_size_fresh by done. reflexivity.
Qed.

(** X16. The pool of a new [R2RBatch] holds exactly one task for every
    instruction of every dataset record: its id is the path id and the
    instruction index joined by an underscore, its scan, path and heading
    are those of the record, and it carries a length exactly when there is
    a tokenizer.  A record without instructions gives no task. *)
Theorem init_pool (f : ImageFeatures.t) (B : nat) (seeded : random.state)
    (dataset : list Dataset.t) (tokenizer : option (string → Z)) (b : nat)
    (load_nav : gset string →
                gmap string (gmap string Point) *
                gmap string (gmap string (gmap string (list string))))
    (c : nat) :
  let self := (__init__ f B seeded dataset tokenizer b load_nav c).1.1 in
  (∀ entry, entry ∈ data self ↔
            ∃ item j, item ∈ dataset ∧ made_from tokenizer item j entry) ∧
  length (data self)
    = sum_list ((λ item, length (Dataset.instructions item)) <$> dataset) ∧
  data self ≡ₚ split_dataset tokenizer dataset.
Proof.
  rewrite init_unfold. cbv zeta. simpl.
  pose proof (shuffle_Permutation (split_dataset tokenizer dataset) seeded) as Hperm.
  split_and!; [| | done].
  - intros entry. rewrite Hperm. apply elem_of_split_dataset.
  - rewrite (Permutation_length Hperm). apply length_split_dataset.
Qed.

Lemma split_instructions_ids (tokenizer : option (string → Z)) (item : Dataset.t)
    (instructions : list string) :
  ∀ j0, Item.instr_id <$> split_instructions tokenizer item j0 instructions
        = (λ j : nat, pretty (Dataset.path_id item) +:+ "_" +:+ pretty j)
            <$> seq j0 (length instructions).
Proof.
  induction instructions as [|instr rest IH]; intros j0; [done|].
  simpl. by rewrite IH.
Qed.

Lemma instr_id_inj (p1 p2 : Z) (j1 j2 : nat) :
  pretty p1 +:+ "_" +:+ pretty j1 = pretty p2 +:+ "_" +:+ pretty j2 →
  p1 = p2 ∧ j1 = j2.
Proof.
  intros Heq. apply joined_inj in Heq as [Hp Hj]; [|apply pretty_Z_plain..].
  split; [by apply (inj pretty) | by apply (inj pretty)].
Qed.

Lemma NoDup_fmap_elem {A B : Type} (f : A → B) (l : list A) (x y : A) :
  NoDup (f <$> l) → x ∈ l → y ∈ l → f x = f y → x = y.
Proof.
  induction l as [|a l IH]; [by intros _ ?%elem_of_nil|].
  rewrite fmap_cons, NoDup_cons, !elem_of_cons.
  intros [Ha Hl] [->|Hx] [->|Hy] Hf; [done | | | by apply IH].
  - destruct Ha. rewrite Hf. by apply list_elem_of_fmap_2.
  - destruct Ha. rewrite <- Hf. by apply list_elem_of_fmap_2.
Qed.

Lemma split_dataset_ids (tokenizer : option (string → Z)) (dataset : list Dataset.t) :
  Item.instr_id <$> split_dataset tokenizer dataset
    = dataset ≫= (λ item,
        (λ j : nat, pretty (Dataset.path_id item) +:+ "_" +:+ pretty j)
          <$> seq 0 (length (Dataset.instructions item))).
Proof.
  unfold split_dataset. induction dataset as [|item dataset IH]; [done|].
  by rewrite !bind_cons, fmap_app, IH, split_instructions_ids.
Qed.

(** X17. When the dataset records have pairwise different path ids, the
    tasks of the pool have pairwise different instruction ids. *)
Theorem init_unique_ids (f : ImageFeatures.t) (B : nat) (seeded : random.state)
    (dataset : list Dataset.t) (tokenizer : option (string → Z)) (b : nat)
    (load_nav : gset string →
                gmap string (gmap string Point) *
                gmap string (gmap string (gmap string (list string))))
    (c : nat) :
  NoDup (Dataset.path_id <$> dataset) →
  NoDup (Item.instr_id
           <$> data (__init__ f B seeded dataset tokenizer b load_nav c).1.1).
Proof.
  intros Hids. rewrite init_unfold. cbv zeta. simpl.
  rewrite (shuffle_Permutation (split_dataset tokenizer dataset) seeded).
  rewrite split_dataset_ids. apply NoDup_bind.
  - intros item1 item2 id H1 H2 Hid1 Hid2.
    apply list_elem_of_fmap in Hid1 as (j1 & -> & _).
    apply list_elem_of_fmap in Hid2 as (j2 & Heq & _).
    apply instr_id_inj in Heq as [Hp _].
    by apply (NoDup_fmap_elem Dataset.path_id dataset).
  - intros item _. apply NoDup_fmap_2_strong; [|apply NoDup_seq].
    intros j1 j2 _ _ Heq. by apply instr_id_inj in Heq as [_ ?].
  - by apply NoDup_fmap_1 in Hids.
Qed.

Lemma init_unique_ids_witness :
  NoDup (Item.instr_id <$> data Ex.built).
Proof.
  apply (init_unique_ids Ex.features 2 Ex.zeros Ex.records Ex.count_chars 1
           Ex.no_graphs 0).
  simpl. apply NoDup_cons. split; [|apply NoDup_singleton].
  intros Hin. inversion Hin as [|? ? ? Hin']. inversion Hin'.
Defined.

(** X18. A new [R2RBatch] has its cursor at 0 and no batch yet; its beam
    size is set and its [EnvBatch] holds one beam of [beam_size] fresh
    simulators for each of the [batch_size] tasks of a batch,
    [batch_size * beam_size] objects in all; its graphs and paths are
    those of the scans of the records that have an instruction. *)
Theorem init_state (f : ImageFeatures.t) (B : nat) (seeded : random.state)
    (dataset : list Dataset.t) (tokenizer : option (string → Z)) (b : nat)
    (load_nav : gset string →
                gmap string (gmap string Point) *
                gmap string (gmap string (gmap string (list string))))
    (c : nat) :
  let built := __init__ f B seeded dataset tokenizer b load_nav c in
  let self := built.1.1 in
  ix self = 0%nat ∧ batch self = None ∧ batch_size self = B ∧
  beam_size self = Some b ∧
  built.2 = (c + B * b)%nat ∧
  (∃ fresh, env self = Some fresh ∧
     EnvBatch.batch_size fresh = B ∧ EnvBatch.beam_size fresh = b ∧
     length (EnvBatch.sims fresh) = B ∧
     Forall (λ beam, length beam = b) (EnvBatch.sims fresh) ∧
     Sim.id <$> concat (EnvBatch.sims fresh) = seq c (B * b)) ∧
  ((0 < b)%nat → ready self) ∧
  (∃ scans : gset string,
     (graphs self, paths self) = load_nav scans ∧
     ∀ scan, scan ∈ scans ↔
       ∃ item, item ∈ dataset ∧ Dataset.scan item = scan ∧
               Dataset.instructions item ≠ []).
Proof.
  rewrite init_unfold. cbv zeta. simpl.
  pose proof (init_well_shaped f B b c) as Hshape.
  unfold EnvBatch.__init__ in *.
  destruct (new_sims_spec f B b c) as (H1 & H2 & H3 & H4).
  destruct (EnvBatch.new_sims f B b c) as [sims c']; simpl in *.
  split_and!; try done.
  - eexists. split; [reflexivity|]. simpl. split_and!; done.
  - intros Hb. eexists. split; [reflexivity|]. split; [by apply Hshape | done].
  - exists (list_to_set (Item.scan <$> split_dataset tokenizer dataset)).
    split; [by destruct (load_nav _)|].
    intros scan. rewrite elem_of_list_to_set, list_elem_of_fmap. split.
    + intros (entry & -> & Hentry).
      apply elem_of_split_dataset in Hentry as (item & j & Hitem & instr & Hj & ->).
      exists item. split_and!; [done | done |]. by intros Hnil; rewrite Hnil in Hj.
    + intros (item & Hitem & <- & Hinstr).
      destruct (Dataset.instructions item) as [|instr rest] eqn:Hi; [done|].
      eexists. split; [|apply elem_of_split_dataset; exists item, 0%nat;
                         split; [done|]; exists instr; by rewrite Hi].
      done.
Qed.

(** ** [reset] *)

Lemma mapM_result_cons {A B : Type} (f : A → result B) (x : A) (l : list A) :
  mapM f (x :: l) = y ← f x; k ← mapM f l; Ok (y :: k).
Proof. reflexivity. Qed.

Lemma first_viewpoints_Ok (batch : list Item.t) :
  Forall (λ item, Item.path item ≠ []) batch →
  ∃ viewpointIds,
    mapM (λ item, index (Item.path item) 0) batch = Ok viewpointIds ∧
    Forall2 (λ item v, Item.path item !! 0%nat = Some v) batch viewpointIds.
Proof.
  induction 1 as [|item batch Hpath _ (vs & Hvs & Hall)].
  { exists []. by split; [|constructor]. }
  destruct (Item.path item) as [|v path] eqn:Hp; [done|].
  exists (v :: vs). rewrite mapM_result_cons, Hvs. unfold index. rewrite Hp.
  split; [done|]. constructor; [by rewrite Hp | done].
Qed.

Lemma first_viewpoints_IndexError (batch : list Item.t) :
  Exists (λ item, Item.path item = []) batch →
  mapM (λ item, index (Item.path item) 0) batch = Raise IndexError.
Proof.
  induction 1 as [item batch Hpath | item batch _ IH]; rewrite mapM_result_cons.
  - unfold index. by rewrite Hpath.
  - rewrite IH. unfold index. by destruct (Item.path item !! 0%nat).
Qed.

Lemma append_states_as_batch (beamed : bool) (poses : list WorldState.t) :
  fold_left (EnvBatch.append_state beamed) poses (EnvBatch.no_states beamed)
    = as_batch beamed poses.
Proof.
  destruct beamed; simpl.
  - by rewrite append_states_beamed.
  - by rewrite append_states_flat.
Qed.

Lemma started_well_shaped (env : EnvBatch.t) (poses : list WorldState.t) :
  well_shaped env → length poses = length (EnvBatch.sims env) →
  well_shaped (EnvBatch.mk (zip_with start_slot0 (EnvBatch.sims env) poses)
                 (EnvBatch.batch_size env) (EnvBatch.beam_size env)
                 (EnvBatch.image_features env)).
Proof.
  intros (Hn & Hb & Hpos) Hposes.
  pose proof (start_slot0_identities (EnvBatch.sims env) _ Hposes) as Hids.
  destruct (identities_shape _ _ (EnvBatch.beam_size env) Hids) as [Hlen Hall].
  split_and!; simpl; [congruence | by apply Hall | done].
Qed.

Lemma starts_initial_poses (drawn : list Item.t) (viewpointIds : list string) :
  Forall2 (λ item v, Item.path item !! 0%nat = Some v) drawn viewpointIds →
  Forall2 starts drawn
    (initial_pose <$> zip (zip (Item.scan <$> drawn) viewpointIds)
                          (Item.heading <$> drawn)).
Proof.
  induction 1 as [|item v drawn vs Hv _ IH]; [constructor|].
  simpl. constructor; [|done]. by exists v.
Qed.

(** The part of [reset] after the draw. *)
Lemma reset_batch_loaded (self : t) (sort beamed : bool) (g : random.state)
    (drawn : list Item.t) :
  ready self →
  batch self = Some drawn →
  length drawn = batch_size self →
  Forall (λ item, Item.path item ≠ []) drawn →
  ∃ poses env',
    reset self sort beamed false g
      = Returned (Ok (as_batch beamed poses, with_env self env', g)) ∧
    Forall2 starts drawn poses ∧
    ready (with_env self env').
Proof.
  intros (env0 & Henv & Hshape & Hsize) Hbatch Hlen Hpaths.
  destruct (first_viewpoints_Ok drawn Hpaths) as (vs & Hvs & Hfirst).
  pose proof (Forall2_length _ _ _ Hfirst) as Hvlen.
  pose proof (well_shaped_beams env0 Hshape) as Hbeams.
  assert (Hn : length (EnvBatch.sims env0) = batch_size self)
    by (destruct Hshape as (-> & _); done).
  unfold reset. rewrite Hbatch, bool_decide_eq_true_2, Hvs, Henv by done.
  rewrite (newEpisodes_ok env0 _ _ _ beamed Hbeams)
    by (rewrite ?length_fmap; congruence).
  simpl. rewrite append_states_as_batch.
  eexists _, _. split_and!; [reflexivity | by apply starts_initial_poses |].
  eexists. split; [reflexivity|]. split; [|done].
  apply started_well_shaped; [done|].
  rewrite length_fmap, !length_zip_with, !length_fmap. lia.
Qed.

Lemma reset_after_draw (self self1 : t) (sort beamed : bool) (g g1 : random.state) :
  _next_minibatch self sort g = Ok (self1, g1) →
  reset self sort beamed true g = reset self1 sort beamed false g1.
Proof. unfold reset. by intros ->. Qed.

(** What a draw without sorting leaves: the tasks drawn come from the
    pool, and the environment is the one it was. *)
Lemma next_minibatch_from_pool (self : t) (g : random.state) :
  ∃ self1 g1 drawn,
    _next_minibatch self false g = Ok (self1, g1) ∧
    batch self1 = Some drawn ∧
    batch_size self1 = batch_size self ∧
    env self1 = env self ∧
    Forall (λ item, item ∈ data self) drawn ∧
    ((batch_size self ≤ length (data self))%nat → length drawn = batch_size self).
Proof.
  destruct (decide (length (data self) - ix self < batch_size self)%nat) as [Hw|Hm].
  - rewrite (next_minibatch_wrap _ _ Hw). cbv zeta.
    pose proof (shuffle_Permutation (data self) g) as Hperm.
    eexists _, _, _. split_and!; [done | done | done | done | |].
    + apply Forall_app. split; apply Forall_forall; intros item Hitem.
      * by apply (subseteq_drop (ix self)).
      * rewrite <- Hperm. by eapply subseteq_take.
    + intros HB. rewrite length_app, length_take, length_drop.
      rewrite (Permutation_length Hperm). lia.
  - rewrite (next_minibatch_mid self g) by lia.
    eexists _, _, _. split_and!; [done | done | done | done | |].
    + apply Forall_forall. intros item Hitem.
      apply (subseteq_drop (ix self)). by eapply subseteq_take.
    + intros HB. rewrite length_take, length_drop. lia.
Qed.

(** X19. On an [R2RBatch] that is ready, with no more tasks in a batch
    than in the pool and no task without a path, [reset()] draws the next
    minibatch and returns one pose per drawn task: the scan of the task,
    the first viewpoint of its path, its heading and elevation 0 (each in
    a beam of its own when beamed).  The object stays ready. *)
Theorem reset_starts_batch (self : t) (beamed : bool) (g : random.state) :
  ready self →
  (batch_size self ≤ length (data self))%nat →
  Forall (λ item, Item.path item ≠ []) (data self) →
  ∃ self1 g1 drawn poses env',
    _next_minibatch self false g = Ok (self1, g1) ∧
    batch self1 = Some drawn ∧
    reset self false beamed true g
      = Returned (Ok (as_batch beamed poses, with_env self1 env', g1)) ∧
    Forall2 starts drawn poses ∧
    ready (with_env self1 env').
Proof.
  intros (env0 & Henv & Hshape & Hsize) HB Hpaths.
  destruct (next_minibatch_from_pool self g)
    as (self1 & g1 & drawn & Hcall & Hbatch & HB1 & Henv1 & Hpool & Hlen).
  destruct (reset_batch_loaded self1 false beamed g1 drawn)
    as (poses & env' & Hreset & Hstarts & Hready).
  - exists env0. by rewrite Henv1, HB1.
  - done.
  - rewrite HB1. by apply Hlen.
  - eapply Forall_impl; [exact Hpool|]. simpl. intros item Hitem.
    rewrite Forall_forall in Hpaths. by apply Hpaths.
  - exists self1, g1, drawn, poses, env'.
    by rewrite (reset_after_draw _ _ _ _ _ _ Hcall).
Qed.

Lemma built_ready : ready Ex.built.
Proof.
  exists (EnvBatch.__init__ Ex.features 2 1 0).1.
  unfold Ex.built. rewrite init_unfold. cbv zeta.
  split; [reflexivity|]. split; [|reflexivity].
  apply init_well_shaped. lia.
Qed.

Lemma built_pool : data Ex.built ≡ₚ split_dataset Ex.count_chars Ex.records.
Proof.
  unfold Ex.built. rewrite init_unfold. cbv zeta.
  change (data _)
    with (random.shuffle (split_dataset Ex.count_chars Ex.records) Ex.zeros).1.
  apply shuffle_Permutation.
Qed.

Lemma reset_starts_batch_witness :
  ∃ self1 g1 drawn poses env',
    _next_minibatch Ex.built false Ex.zeros = Ok (self1, g1) ∧
    batch self1 = Some drawn ∧
    reset Ex.built false false true Ex.zeros
      = Returned (Ok (as_batch false poses, with_env self1 env', g1)) ∧
    Forall2 starts drawn poses ∧
    ready (with_env self1 env').
Proof.
  apply (reset_starts_batch Ex.built false Ex.zeros built_ready).
  - rewrite (Permutation_length built_pool). simpl. lia.
  - apply Forall_forall. intros item Hin. rewrite built_pool in Hin.
    apply elem_of_split_dataset in Hin as (record & j & Hrecord & instr & _ & ->).
    simpl. unfold Ex.records in Hrecord.
    apply elem_of_cons in Hrecord as [->|Hrecord]; [done|].
    apply elem_of_cons in Hrecord as [->|Hrecord]; [done|].
    by apply elem_of_nil in Hrecord.
Defined.

(** X20. When the batch size is more than twice the size of the pool, as
    it is for an empty pool, [reset()] cannot fill a batch even across
    the wrap and fails on its assertion. *)
Theorem reset_short_pool (self : t) (beamed : bool) (g : random.state) :
  (2 * length (data self) < batch_size self)%nat →
  reset self false beamed true g = Returned (Raise AssertionError).
Proof.
  intros Hshort.
  destruct (next_minibatch_bounds self g)
    as (self0 & g0 & drawn & Hcall & Hdrawn & _ & Hsize & _ & Hlen).
  unfold reset. rewrite Hcall, Hdrawn.
  by rewrite bool_decide_eq_false_2 by lia.
Qed.

Lemma reset_short_pool_witness :
  reset Ex.bare false false true Ex.zeros = Returned (Raise AssertionError).
Proof. apply (reset_short_pool Ex.bare false Ex.zeros). simpl. lia. Defined.




(** X22. When a drawn task has an empty path, [reset()] raises
    [IndexError] on [item['path'][0]] and no episode is started. *)
Theorem reset_empty_path (self self1 : t) (sort beamed : bool)
    (g g1 : random.state) (drawn : list Item.t) :
  _next_minibatch self sort g = Ok (self1, g1) →
  batch self1 = Some drawn →
  length drawn = batch_size self1 →
  Exists (λ item, Item.path item = []) drawn →
  reset self sort beamed true g = Returned (Raise IndexError).
Proof.
  intros Hcall Hbatch Hlen Hempty.
  rewrite (reset_after_draw _ _ _ _ _ _ Hcall). unfold reset.
  rewrite Hbatch, bool_decide_eq_true_2 by done.
  by rewrite first_viewpoints_IndexError.
Qed.

Lemma reset_empty_path_witness :
  reset Ex.pathless false false true Ex.zeros = Returned (Raise IndexError).
Proof.
  eapply (reset_empty_path Ex.pathless _ false false Ex.zeros);
    [reflexivity | reflexivity | reflexivity | by constructor].
Defined.
